(** * Layout optimisation core of the block diagram editor

    A shallow embedding of the optimisation core of [engine.py] and
    [optimization.py]: the layout model, the placement search, the cost
    evaluator, the move applier and the optimisation loop with its two
    acceptance strategies.

    Conventions of the embedding.
    - Python floats are idealised as canonical rationals ([Qc]): every
      finite float is a rational, equality on [Qc] is Leibniz equality, and
      all operations compute.  Rounding errors of float arithmetic are not
      modelled.
    - Python ints are [Z].
    - Objects are identified by their names (blocks, diagram pins) or by a
      numeric identifier (wires); the scene is the list that
      [QGraphicsScene.items()] returns, restricted to the top-level items the
      code looks at (blocks, diagram pins, wires).
    - What Qt computes and the repository does not (curve length, curve
      intersection) is a variable of the section that uses it.
    - The pseudo-random generator is a tape of draws, one record per
      iteration of the optimisation loop.
    - Logging and the progress bar are presentation effects and are left
      out. *)

From stdpp Require Import base numbers list strings gmap sorting.
From Stdlib Require Import QArith Qcanon Qround.

Local Open Scope Z_scope.

(** ** Numbers *)

Definition of_Z (z : Z) : Qc := Q2Qc (inject_Z z).

Definition Qc_ltb (a b : Qc) : bool := bool_decide (a < b)%Qc.
Definition Qc_leb (a b : Qc) : bool := bool_decide (a <= b)%Qc.
Definition Qc_eqb (a b : Qc) : bool := bool_decide (a = b).
Definition Qc_min (a b : Qc) : Qc := if Qc_ltb b a then b else a.
Definition Qc_max (a b : Qc) : Qc := if Qc_ltb a b then b else a.
Definition Qc_abs (a : Qc) : Qc := if Qc_ltb a 0%Qc then (- a)%Qc else a.

(** Python's [round] on one argument: to the nearest integer, ties to the
    even one. *)
Definition py_round (q : Qc) : Z :=
  let f := Qfloor q in
  match Qccompare (q - of_Z f)%Qc (Q2Qc (1 # 2)) with
  | Lt => f
  | Gt => f + 1
  | Eq => if Z.even f then f else f + 1
  end.

(** ** conf.py *)

Module conf.
Definition GRID_SIZE : Z := 20.
Definition SUPER_BLOCK_MARGIN_X : Z := 120.
Definition SUPER_BLOCK_MARGIN_Y : Z := 40.
Definition WIRE_STUB_LENGTH : Z := GRID_SIZE.
Definition BEZIER_DX_FACTOR : Qc := Q2Qc (1 # 2).
Definition BEZIER_STUB_FACTOR : Qc := of_Z 3.
Definition BLOCK_PLACEMENT_SEARCH_MAX_RADIUS : Z := 500 * GRID_SIZE.
Definition COST_FUNCTION_INTERSECTION_WEIGHT : Qc := of_Z 100.
Definition COST_FUNCTION_WIRELENGTH_WEIGHT : Qc := Q2Qc (1 # 10).
Definition OPTIMIZER_RHC_DEFAULT_ITERATIONS : Z := 200.
Definition OPTIMIZER_RHC_DEFAULT_MOVE_STEP_GRID_UNITS : Qc := of_Z 8.
Definition OPTIMIZER_RHC_DEFAULT_REPORTING_INTERVAL : Z := 20.
Definition OPTIMIZER_SA_MIN_TEMPERATURE : Qc := Q2Qc (1 # 1000000000).
Definition USE_DETAILED_INTERSECTION_CHECK : bool := false.
Definition BLOCK_PIN_TOP_PADDING : Z := GRID_SIZE.
Definition BLOCK_PIN_VERTICAL_SPACING : Z := GRID_SIZE.
Definition BLOCK_PIN_BOTTOM_PADDING : Z := GRID_SIZE.
Definition BLOCK_PIN_RADIUS : Z := 6.
Definition BLOCK_PIN_TEXT_PADDING : Z := 4.
Definition MIN_ITEM_DIMENSION : Z := GRID_SIZE.
Definition STANDARD_BLOCK_WIDTH : Z := GRID_SIZE * 8.
Definition MIN_BLOCK_INTERNAL_PADDING : Z := 5.
Definition BLOCK_TITLE_TOP_MARGIN : Z := 4.
Definition INITIAL_ITEM_X : Z := 0.
Definition INITIAL_ITEM_Y : Z := 0.
Definition Z_VALUE_WIRE : Z := 1.
Definition Z_VALUE_PIN : Z := 2.
Definition Z_VALUE_BLOCK : Z := 2.
Definition MIN_ZOOM_FACTOR : Qc := Q2Qc (1 # 10).
Definition MAX_ZOOM_FACTOR : Qc := of_Z 5.
Definition ZOOM_STEP_FACTOR : Qc := Q2Qc (115 # 100).
Definition INITIAL_ZOOM_FACTOR : Qc := of_Z 1.
Definition FLOAT_COMPARISON_EPSILON : Qc := Q2Qc (1 # 1000000000).
End conf.

(** The grid snapping that the constructors, [itemChange] and the move
    applier all write as [round(v / conf.GRID_SIZE) * conf.GRID_SIZE]. *)
Definition snap (v : Qc) : Qc :=
  of_Z (py_round (v / of_Z conf.GRID_SIZE)%Qc * conf.GRID_SIZE).

(** ** Qt geometry: QPointF and QRectF *)

Record QPointF := mkPoint { px : Qc; py : Qc }.

(** A QRectF as Qt stores it: top-left corner, width and height. *)
Record QRectF := mkRect { rx : Qc; ry : Qc; rw : Qc; rh : Qc }.

#[global] Instance QPointF_eq_dec : EqDecision QPointF.
Proof. solve_decision. Defined.
#[global] Instance QRectF_eq_dec : EqDecision QRectF.
Proof. solve_decision. Defined.

Definition snap_point (p : QPointF) : QPointF := mkPoint (snap (px p)) (snap (py p)).

Definition rect_left (r : QRectF) : Qc := rx r.
Definition rect_top (r : QRectF) : Qc := ry r.
Definition rect_right (r : QRectF) : Qc := (rx r + rw r)%Qc.
Definition rect_bottom (r : QRectF) : Qc := (ry r + rh r)%Qc.
Definition rect_height (r : QRectF) : Qc := rh r.
Definition rect_isNull (r : QRectF) : bool := Qc_eqb (rw r) 0%Qc && Qc_eqb (rh r) 0%Qc.
Definition rect_isEmpty (r : QRectF) : bool := Qc_leb (rw r) 0%Qc || Qc_leb (rh r) 0%Qc.

(** The extent of a rectangle along one axis, normalised as Qt does for a
    negative width or height. *)
Definition span (p w : Qc) : Qc * Qc :=
  if Qc_ltb w 0%Qc then ((p + w)%Qc, p) else (p, (p + w)%Qc).

(** [QRectF::intersects]: false for a rectangle that is null along an axis,
    and for rectangles that only touch. *)
Definition spans_intersect (s1 s2 : Qc * Qc) : bool :=
  negb (Qc_eqb (fst s1) (snd s1)) && negb (Qc_eqb (fst s2) (snd s2))
  && negb (Qc_leb (snd s2) (fst s1) || Qc_leb (snd s1) (fst s2)).

Definition rect_intersects (a b : QRectF) : bool :=
  spans_intersect (span (rx a) (rw a)) (span (rx b) (rw b))
  && spans_intersect (span (ry a) (rh a)) (span (ry b) (rh b)).

(** [QRectF::united]: the bounding rectangle of both; a null rectangle is
    neutral. *)
Definition rect_united (a b : QRectF) : QRectF :=
  if rect_isNull a then b
  else if rect_isNull b then a
  else
    let '(l1, r1) := span (rx a) (rw a) in
    let '(l2, r2) := span (rx b) (rw b) in
    let '(t1, b1) := span (ry a) (rh a) in
    let '(t2, b2) := span (ry b) (rh b) in
    let l := Qc_min l1 l2 in
    let t := Qc_min t1 t2 in
    mkRect l t (Qc_max r1 r2 - l)%Qc (Qc_max b1 b2 - t)%Qc.

Definition rect_adjusted (r : QRectF) (dx1 dy1 dx2 dy2 : Qc) : QRectF :=
  mkRect (rx r + dx1)%Qc (ry r + dy1)%Qc (rw r + dx2 - dx1)%Qc (rh r + dy2 - dy1)%Qc.

Definition rect_translated (r : QRectF) (p : QPointF) : QRectF :=
  mkRect (rx r + px p)%Qc (ry r + py p)%Qc (rw r) (rh r).

(** ** Layout model (engine.py) *)

Inductive PinType := INPUT | OUTPUT.

Inductive MoveType := MOVE_BLOCK | REORDER_BLOCK_PINS | REORDER_DIAGRAM_PINS.

(** The two concrete subclasses of [DiagramPin]. *)
Inductive DiagramPinClass := DiagramInputPin | DiagramOutputPin.

#[global] Instance PinType_eq_dec : EqDecision PinType.
Proof. solve_decision. Defined.
#[global] Instance MoveType_eq_dec : EqDecision MoveType.
Proof. solve_decision. Defined.
#[global] Instance DiagramPinClass_eq_dec : EqDecision DiagramPinClass.
Proof. solve_decision. Defined.

(** [DiagramInputPin.__init__] passes [PinType.OUTPUT] to its base class,
    [DiagramOutputPin.__init__] passes [PinType.INPUT]. *)
Definition class_pin_type (c : DiagramPinClass) : PinType :=
  match c with DiagramInputPin => OUTPUT | DiagramOutputPin => INPUT end.

(** The identity of a pin object: a pin of a block, or a diagram pin. *)
Inductive PinRef :=
| BlockPinRef (block : string) (pin : string)
| DiagramPinRef (cls : DiagramPinClass) (name : string).

#[global] Instance PinRef_eq_dec : EqDecision PinRef.
Proof. solve_decision. Defined.

(** A wire.  [end_pin] is [None] only for the provisional wire of a drag,
    which then has a [_temp_end_pos]. *)
Record Wire := mkWire {
  wire_id : nat;
  start_pin : PinRef;
  end_pin : option PinRef;
  _temp_end_pos : option QPointF;
  wire_is_locked : bool
}.

(** A pin of a block.  Its name is its key in the dictionary of its block;
    [PinMixin] gives it the list of its wires and no lock flag. *)
Record BlockPin := mkBlockPin {
  index : Z;
  bp_wires : list nat
}.

(** A block.  [input_pins] and [output_pins] are the two dictionaries, in
    insertion order; [rect_w] and [rect_h] the size of [rect()];
    [title_rect] the rectangle of the title in the block's coordinates. *)
Record Block := mkBlock {
  block_name : string;
  block_pos : QPointF;
  block_is_locked : bool;
  rect_w : Qc;
  rect_h : Qc;
  title_rect : QRectF;
  input_pins : list (string * BlockPin);
  output_pins : list (string * BlockPin)
}.

(** A diagram pin; [dp_bounding] is the [boundingRect()] of its polygon. *)
Record DiagramPin := mkDiagramPin {
  dp_class : DiagramPinClass;
  dp_name : string;
  dp_pos : QPointF;
  dp_bounding : QRectF;
  dp_wires : list nat
}.

Inductive Item :=
| IBlock (b : Block)
| IDiagramPin (p : DiagramPin)
| IWire (w : Wire).

(** The identity of an item of the scene. *)
Inductive ItemRef :=
| BlockRef (name : string)
| PinItemRef (cls : DiagramPinClass) (name : string)
| WireRef (id : nat).

#[global] Instance ItemRef_eq_dec : EqDecision ItemRef.
Proof. solve_decision. Defined.

Definition item_ref (i : Item) : ItemRef :=
  match i with
  | IBlock b => BlockRef (block_name b)
  | IDiagramPin p => PinItemRef (dp_class p) (dp_name p)
  | IWire w => WireRef (wire_id w)
  end.

(** [BlockDiagramScene]: [items] is what [items()] returns. *)
Record Scene := mkScene {
  items : list Item;
  _realign_enabled : bool
}.

Definition scene_blocks (s : Scene) : list Block :=
  omap (fun i => match i with IBlock b => Some b | _ => None end) (items s).

Definition scene_wires (s : Scene) : list Wire :=
  omap (fun i => match i with IWire w => Some w | _ => None end) (items s).

Definition scene_diagram_pins (c : DiagramPinClass) (s : Scene) : list DiagramPin :=
  omap (fun i => match i with
                 | IDiagramPin p => if decide (dp_class p = c) then Some p else None
                 | _ => None
                 end) (items s).

Definition find_block (name : string) (s : Scene) : option Block :=
  List.find (fun b => bool_decide (block_name b = name)) (scene_blocks s).

Definition find_wire (id : nat) (s : Scene) : option Wire :=
  List.find (fun w => bool_decide (wire_id w = id)) (scene_wires s).

Definition find_diagram_pin (c : DiagramPinClass) (name : string) (s : Scene)
  : option DiagramPin :=
  List.find (fun p => bool_decide (dp_name p = name)) (scene_diagram_pins c s).

(** Lookup in a dictionary kept as an association list. *)
Fixpoint dict_get {V} (k : string) (d : list (string * V)) : option V :=
  match d with
  | [] => None
  | (k', v) :: d' => if decide (k' = k) then Some v else dict_get k d'
  end.

Definition dict_keys {V} (d : list (string * V)) : list string := d.*1.
Definition dict_values {V} (d : list (string * V)) : list V := d.*2.

(** [d[k].field = ...] on an existing key. *)
Fixpoint dict_alter {V} (f : V -> V) (k : string) (d : list (string * V))
  : list (string * V) :=
  match d with
  | [] => []
  | (k', v) :: d' =>
      if decide (k' = k) then (k', f v) :: d' else (k', v) :: dict_alter f k d'
  end.

(** *** Locks *)

(** [PinMixin.is_locked]: [any(wire.is_locked for wire in self.wires)]. *)
Definition pin_is_locked (s : Scene) (wires : list nat) : bool :=
  existsb (fun id => match find_wire id s with
                     | Some w => wire_is_locked w
                     | None => false
                     end) wires.

(** *** Bounding rectangles *)

(** [Block.boundingRect], then [sceneBoundingRect] of a top-level item. *)
Definition block_boundingRect (b : Block) : QRectF :=
  rect_united (mkRect 0%Qc 0%Qc (rect_w b) (rect_h b)) (title_rect b).

Definition block_sceneBoundingRect (b : Block) : QRectF :=
  rect_translated (block_boundingRect b) (block_pos b).

Definition pin_sceneBoundingRect (p : DiagramPin) : QRectF :=
  rect_translated (dp_bounding p) (dp_pos p).

(** ** Placement search (engine.py) *)

Definition _is_rect_overlapping (s : Scene) (rect : QRectF)
    (item_to_ignore : option ItemRef) : bool :=
  existsb (fun item =>
    if decide (Some (item_ref item) = item_to_ignore) then false
    else match item with
         | IBlock b => rect_intersects rect (block_sceneBoundingRect b)
         | IDiagramPin p => rect_intersects rect (pin_sceneBoundingRect p)
         | IWire _ => false
         end) (items s).

(** The corner test of the walk, as written. *)
Definition at_corner (x y : Z) : bool :=
  (x =? y) || ((x <? 0) && (x =? - y)) || ((0 <? x) && (x =? 1 - y)).

(** The rectangle tested for a candidate position. *)
Definition candidate_rect (item_width item_height : Qc) (is_centered : bool)
    (pos : QPointF) : QRectF :=
  let top_left :=
    if is_centered
    then mkPoint (px pos - item_width / of_Z 2)%Qc (py pos - item_height / of_Z 2)%Qc
    else pos in
  mkRect (px top_left) (py top_left) item_width item_height.

(** The [while] loop of [find_safe_placement]; [None] when the fuel runs
    out. *)
Fixpoint placement_loop (fuel : nat) (occupied : QRectF -> bool)
    (item_width item_height : Qc) (is_centered : bool) (start_pos : QPointF)
    (x y dx dy : Z) : option QPointF :=
  match fuel with
  | O => None
  | S fuel' =>
      let max_radius_sq := conf.BLOCK_PLACEMENT_SEARCH_MAX_RADIUS ^ 2 in
      if x * x + y * y <? max_radius_sq then
        let '(dx, dy) := if at_corner x y then (- dy, dx) else (dx, dy) in
        let x := x + dx in
        let y := y + dy in
        let current_pos :=
          mkPoint (px start_pos + of_Z x)%Qc (py start_pos + of_Z y)%Qc in
        if negb (occupied (candidate_rect item_width item_height is_centered current_pos))
        then Some current_pos
        else placement_loop fuel' occupied item_width item_height is_centered
               start_pos x y dx dy
      else Some start_pos
  end.

Definition placement_fuel : nat := 1000.

Definition find_safe_placement (s : Scene) (item_width item_height : Qc)
    (item_to_ignore : option ItemRef) (search_center_hint : option QPointF)
    (is_centered : bool) : option QPointF :=
  let search_center_hint := default (mkPoint 0%Qc 0%Qc) search_center_hint in
  let start_pos :=
    if is_centered then snap_point search_center_hint
    else mkPoint (snap (px search_center_hint - item_width / of_Z 2)%Qc)
                 (snap (py search_center_hint - item_height / of_Z 2)%Qc) in
  let occupied := fun r => _is_rect_overlapping s r item_to_ignore in
  if negb (occupied (candidate_rect item_width item_height is_centered start_pos))
  then Some start_pos
  else placement_loop placement_fuel occupied item_width item_height is_centered
         start_pos 0 0 0 (- conf.GRID_SIZE).

(** ** Path router (engine.py, RoutingManager) *)

(** A [QPainterPath] as the router builds it: empty, or one cubic from a
    start point through two control points to an end point. *)
Inductive QPainterPath :=
| EmptyPath
| CubicPath (start cp1 cp2 stop : QPointF).

Definition calculate_path (start_pos end_pos_or_temp : QPointF)
    (start_pin_type : PinType) (end_pin_type : option PinType)
    (is_temporary : bool) : QPainterPath :=
  let end_pos := end_pos_or_temp in
  let dx := (px end_pos - px start_pos)%Qc in
  let offset := Qc_max (Qc_abs dx * conf.BEZIER_DX_FACTOR)%Qc
                       (of_Z conf.WIRE_STUB_LENGTH * conf.BEZIER_STUB_FACTOR)%Qc in
  let cp1_x := match start_pin_type with
               | OUTPUT => (px start_pos + offset)%Qc
               | INPUT => (px start_pos - offset)%Qc
               end in
  let cp1 := mkPoint cp1_x (py start_pos) in
  let effective_end_pin_type :=
    if is_temporary
    then Some (match start_pin_type with OUTPUT => INPUT | INPUT => OUTPUT end)
    else end_pin_type in
  let cp2_x := match effective_end_pin_type with
               | Some INPUT => (px end_pos - offset)%Qc
               | Some OUTPUT => (px end_pos + offset)%Qc
               | None => (px end_pos - offset)%Qc
               end in
  let cp2 := mkPoint cp2_x (py end_pos) in
  CubicPath start_pos cp1 cp2 end_pos.

(** [BlockPin.update_position] followed by the clamping of
    [BlockPin.itemChange]: the position of a pin in its block. *)
Definition block_pin_pos (b : Block) (t : PinType) (p : BlockPin) : QPointF :=
  let y := of_Z (conf.BLOCK_PIN_TOP_PADDING + index p * conf.BLOCK_PIN_VERTICAL_SPACING) in
  let clamped_y := Qc_max 0%Qc (Qc_min y (rect_h b)) in
  match t with
  | INPUT => mkPoint 0%Qc clamped_y
  | OUTPUT => mkPoint (rect_w b) clamped_y
  end.

(** [scenePos()] and [pin_type] of the pin a reference names. *)
Definition pin_scene_info (s : Scene) (r : PinRef) : option (QPointF * PinType) :=
  match r with
  | BlockPinRef bn pn =>
      b ← find_block bn s;
      match dict_get pn (input_pins b), dict_get pn (output_pins b) with
      | Some p, _ =>
          let l := block_pin_pos b INPUT p in
          Some (mkPoint (px (block_pos b) + px l)%Qc (py (block_pos b) + py l)%Qc, INPUT)
      | None, Some p =>
          let l := block_pin_pos b OUTPUT p in
          Some (mkPoint (px (block_pos b) + px l)%Qc (py (block_pos b) + py l)%Qc, OUTPUT)
      | None, None => None
      end
  | DiagramPinRef c n =>
      p ← find_diagram_pin c n s;
      Some (dp_pos p, class_pin_type c)
  end.

(** [Wire.update_geometry] runs whenever an end point moves, so the path of
    a wire is the routed curve between the current positions of its pins. *)
Definition wire_path (s : Scene) (w : Wire) : QPainterPath :=
  match pin_scene_info s (start_pin w) with
  | None => EmptyPath
  | Some (start_pos, start_type) =>
      match end_pin w with
      | Some e =>
          match pin_scene_info s e with
          | Some (end_pos, end_type) =>
              calculate_path start_pos end_pos start_type (Some end_type) false
          | None => EmptyPath
          end
      | None =>
          match _temp_end_pos w with
          | Some t => calculate_path start_pos t start_type None true
          | None => EmptyPath
          end
      end
  end.

(** ** Cost evaluator (engine.py, MainWindow) *)

(** The parameter dictionary of the optimisers, which they also hand to the
    cost function: one optional entry per key the code reads with
    [params.get(key, default)]. *)
Record Params := mkParams {
  iterations : option Z;
  move_step_grid_units : option Qc;
  reporting_interval : option Z;
  initial_temp : option Qc;
  cooling_rate : option Qc;
  intersection_weight : option Qc;
  wirelength_weight : option Qc
}.

Definition empty_params : Params :=
  mkParams None None None None None None None.

(** [itertools.combinations(l, 2)]. *)
Fixpoint combinations2 {A} (l : list A) : list (A * A) :=
  match l with
  | [] => []
  | x :: l' => map (pair x) l' ++ combinations2 l'
  end.

(** [{wire.start_pin, wire.end_pin}]. *)
Definition wire_pins (w : Wire) : list (option PinRef) :=
  [Some (start_pin w); end_pin w].

Definition isdisjoint (a b : list (option PinRef)) : bool :=
  forallb (fun p => negb (bool_decide (p ∈ b))) a.

(** [{p.parent_block for p in (start_pin, end_pin) if p and p.parent_block}]. *)
Definition connected_blocks (w : Wire) : list string :=
  omap (fun p => match p with
                 | Some (BlockPinRef b _) => Some b
                 | _ => None
                 end) (wire_pins w).

(** What Qt computes on paths: [QPainterPath.intersects] on a path and on a
    rectangle, [QPainterPath.length], and for the detailed mode the bounding
    rectangle of the intersection of the stroked shapes, [None] when that
    intersection is empty. *)
Record QtPaths := mkQtPaths {
  path_intersects : QPainterPath -> QPainterPath -> bool;
  path_intersects_rect : QPainterPath -> QRectF -> bool;
  path_length : QPainterPath -> Qc;
  shape_intersected : QPainterPath -> QPainterPath -> option QRectF;
  shape_intersected_rect : QPainterPath -> QRectF -> option QRectF
}.

Section Cost.
Context (qt : QtPaths).

(** What one pair of wires adds to the score. *)
Definition wire_pair_penalty (s : Scene) (wire1 wire2 : Wire) : Qc :=
  if isdisjoint (wire_pins wire1) (wire_pins wire2) then
    if conf.USE_DETAILED_INTERSECTION_CHECK then
      match shape_intersected qt (wire_path s wire1) (wire_path s wire2) with
      | Some r => (rw r * rh r)%Qc
      | None => 0%Qc
      end
    else if path_intersects qt (wire_path s wire1) (wire_path s wire2)
         then 1%Qc else 0%Qc
  else 0%Qc.

(** What one wire and one block add to the score. *)
Definition wire_block_penalty (s : Scene) (wire : Wire) (block : Block) : Qc :=
  if bool_decide (block_name block ∈ connected_blocks wire) then 0%Qc
  else if conf.USE_DETAILED_INTERSECTION_CHECK then
    match shape_intersected_rect qt (wire_path s wire) (block_sceneBoundingRect block) with
    | Some r => (rw r * rh r)%Qc
    | None => 0%Qc
    end
  else if path_intersects_rect qt (wire_path s wire) (block_sceneBoundingRect block)
       then 1%Qc else 0%Qc.

Definition wire_wire_score (s : Scene) : Qc :=
  foldl (fun score '(wire1, wire2) => (score + wire_pair_penalty s wire1 wire2)%Qc)
        0%Qc (combinations2 (scene_wires s)).

Definition _calculate_intersection_score (s : Scene) : Qc :=
  let wires := scene_wires s in
  let blocks := scene_blocks s in
  let intersection_score := wire_wire_score s in
  foldl (fun score wire =>
           foldl (fun score block => (score + wire_block_penalty s wire block)%Qc)
                 score blocks)
        intersection_score wires.

Definition _calculate_total_wire_length (s : Scene) : Qc :=
  foldl (fun total_length wire => (total_length + path_length qt (wire_path s wire))%Qc)
        0%Qc (scene_wires s).

Definition calculate_diagram_cost (s : Scene) (cost_params : option Params) : Qc :=
  let cost_params := default empty_params cost_params in
  let intersection_weight :=
    default conf.COST_FUNCTION_INTERSECTION_WEIGHT (intersection_weight cost_params) in
  let wirelength_weight :=
    default conf.COST_FUNCTION_WIRELENGTH_WEIGHT (wirelength_weight cost_params) in
  let intersection_score := _calculate_intersection_score s in
  let wire_length_score := _calculate_total_wire_length s in
  (intersection_score * intersection_weight + wire_length_score * wirelength_weight)%Qc.
End Cost.

(** ** Programmatic layout API (engine.py) *)

(** Python's [sorted(l, key=...)]: a stable sort. *)
Fixpoint insert_sorted {A K} (leb : K -> K -> bool) (key : A -> K) (x : A)
    (l : list A) : list A :=
  match l with
  | [] => [x]
  | y :: l' => if leb (key x) (key y) then x :: l
               else y :: insert_sorted leb key x l'
  end.

Definition sorted {A K} (leb : K -> K -> bool) (key : A -> K) (l : list A) : list A :=
  foldr (insert_sorted leb key) [] l.

(** [enumerate(l)]. *)
Definition enumerate {A} (l : list A) : list (Z * A) :=
  zip (map Z.of_nat (seq 0 (length l))) l.

(** [set(a) != set(b)] is false. *)
Definition same_set (a b : list string) : bool :=
  forallb (fun x => bool_decide (x ∈ b)) a && forallb (fun x => bool_decide (x ∈ a)) b.

(** Replace the first item that [f] accepts. *)
Fixpoint update_first {A} (f : A -> option A) (l : list A) : list A :=
  match l with
  | [] => []
  | x :: l' => match f x with
               | Some x' => x' :: l'
               | None => x :: update_first f l'
               end
  end.

Definition update_block (name : string) (f : Block -> Block) (s : Scene) : Scene :=
  mkScene (update_first (fun i => match i with
                                  | IBlock b => if decide (block_name b = name)
                                                then Some (IBlock (f b)) else None
                                  | _ => None
                                  end) (items s))
          (_realign_enabled s).

Definition update_diagram_pin (c : DiagramPinClass) (name : string)
    (f : DiagramPin -> DiagramPin) (s : Scene) : Scene :=
  mkScene (update_first (fun i => match i with
                                  | IDiagramPin p =>
                                      if decide (dp_class p = c ∧ dp_name p = name)
                                      then Some (IDiagramPin (f p)) else None
                                  | _ => None
                                  end) (items s))
          (_realign_enabled s).

Definition set_block_pos (p : QPointF) (b : Block) : Block :=
  mkBlock (block_name b) p (block_is_locked b) (rect_w b) (rect_h b) (title_rect b)
          (input_pins b) (output_pins b).

Definition set_block_pins (t : PinType) (d : list (string * BlockPin)) (b : Block) : Block :=
  match t with
  | INPUT => mkBlock (block_name b) (block_pos b) (block_is_locked b) (rect_w b)
               (rect_h b) (title_rect b) d (output_pins b)
  | OUTPUT => mkBlock (block_name b) (block_pos b) (block_is_locked b) (rect_w b)
                (rect_h b) (title_rect b) (input_pins b) d
  end.

Definition set_pin_pos (pos : QPointF) (p : DiagramPin) : DiagramPin :=
  mkDiagramPin (dp_class p) (dp_name p) pos (dp_bounding p) (dp_wires p).

Definition set_index (i : Z) (p : BlockPin) : BlockPin := mkBlockPin i (bp_wires p).

(** [QGraphicsItem.setPos] on a diagram pin of the scene: Qt returns at once
    when the position is the current one, else asks [itemChange], where
    [SelectableMovableItemMixin] snaps the position to the grid, and moves
    the pin unless the snapped position is the current one. *)
Definition diagram_pin_setPos (c : DiagramPinClass) (name : string) (pos : QPointF)
    (s : Scene) : Scene :=
  match find_diagram_pin c name s with
  | None => s
  | Some p =>
      if decide (dp_pos p = pos) then s
      else let new_pos := snap_point pos in
           if decide (dp_pos p = new_pos) then s
           else update_diagram_pin c name (set_pin_pos new_pos) s
  end.

Definition get_blocks_bounding_box (s : Scene) : QRectF :=
  match scene_blocks s with
  | [] => mkRect 0%Qc 0%Qc 0%Qc 0%Qc
  | b :: bs =>
      foldl (fun total_bounding_box item => rect_united total_bounding_box
                                              (block_sceneBoundingRect item))
            (block_sceneBoundingRect b) bs
  end.

Definition get_super_block (s : Scene) : QRectF :=
  let blocks_bbox := get_blocks_bounding_box s in
  if negb (rect_isEmpty blocks_bbox) then
    rect_adjusted blocks_bbox (- of_Z conf.SUPER_BLOCK_MARGIN_X)%Qc
      (- of_Z conf.SUPER_BLOCK_MARGIN_Y)%Qc
      (of_Z conf.SUPER_BLOCK_MARGIN_X) (of_Z conf.SUPER_BLOCK_MARGIN_Y)
  else blocks_bbox.

(** One of the two halves of [realign_diagram_pins]: the pins of class [c]
    spread along the vertical line at [x]. *)
Definition align_diagram_pins (c : DiagramPinClass) (x : Qc) (super_block : QRectF)
    (s : Scene) : Scene :=
  let pins := sorted Qc_leb (fun p => py (dp_pos p)) (scene_diagram_pins c s) in
  let num_pins := Z.of_nat (length pins) in
  if 0 <? num_pins then
    let super_block_height := rect_height super_block in
    let segment_height := (super_block_height / of_Z (num_pins + 1))%Qc in
    foldl (fun s '(i, pin) =>
             let new_y := (rect_top super_block + of_Z (i + 1) * segment_height)%Qc in
             diagram_pin_setPos c (dp_name pin) (mkPoint x new_y) s)
          s (enumerate pins)
  else s.

Definition realign_diagram_pins (s : Scene) : Scene :=
  if negb (_realign_enabled s) then s
  else
    let super_block := get_super_block s in
    if rect_isEmpty super_block then s
    else
      let s := align_diagram_pins DiagramInputPin (rect_left super_block) super_block s in
      align_diagram_pins DiagramOutputPin (rect_right super_block) super_block s.

(** [setPos] on a block of the scene: as for a diagram pin, and
    [Block.itemChange] realigns the diagram pins once the block has moved. *)
Definition block_setPos (name : string) (pos : QPointF) (s : Scene) : Scene :=
  match find_block name s with
  | None => s
  | Some b =>
      if decide (block_pos b = pos) then s
      else let new_pos := snap_point pos in
           if decide (block_pos b = new_pos) then s
           else realign_diagram_pins (update_block name (set_block_pos new_pos) s)
  end.

Definition move_block (s : Scene) (block_name : string) (x y : Qc) : bool * Scene :=
  match find_block block_name s with
  | Some _ => (true, block_setPos block_name (mkPoint x y) s)
  | None => (false, s)
  end.

Definition block_pins (t : PinType) (b : Block) : list (string * BlockPin) :=
  match t with INPUT => input_pins b | OUTPUT => output_pins b end.

Definition set_block_pin_order (s : Scene) (block_name : string) (pin_type : PinType)
    (ordered_pin_names : list string) : bool * Scene :=
  match find_block block_name s with
  | None => (false, s)
  | Some block =>
      let pins_to_reorder := block_pins pin_type block in
      if negb (same_set ordered_pin_names (dict_keys pins_to_reorder)) then (false, s)
      else
        let pins := foldl (fun d '(i, pin_name) => dict_alter (set_index i) pin_name d)
                          pins_to_reorder (enumerate ordered_pin_names) in
        (true, update_block block_name (set_block_pins pin_type pins) s)
  end.

(** The class of diagram pins a logical pin type stands for. *)
Definition target_class (pin_type : PinType) : DiagramPinClass :=
  match pin_type with OUTPUT => DiagramInputPin | INPUT => DiagramOutputPin end.

Definition set_diagram_pin_order (s : Scene) (pin_type : PinType)
    (ordered_pin_names : list string) : bool * Scene :=
  let target_class := target_class pin_type in
  let pins_to_reorder := map dp_name (scene_diagram_pins target_class s) in
  if negb (same_set ordered_pin_names pins_to_reorder) then (false, s)
  else
    let s := foldl (fun s '(i, pin_name) =>
                      match find_diagram_pin target_class pin_name s with
                      | Some pin =>
                          diagram_pin_setPos target_class pin_name
                            (mkPoint (px (dp_pos pin)) (of_Z i)) s
                      | None => s
                      end)
                   s (enumerate ordered_pin_names) in
    (true, realign_diagram_pins s).

(** ** Moves (engine.py, MainWindow._run_optimizer_logic) *)

(** An entry of [possible_moves].  A move names the objects its dictionary
    holds: the block, or the diagram pins of the logical type. *)
Inductive Move :=
| MoveBlock (block : string)
| ReorderBlockPins (block : string) (pin_type : PinType)
| ReorderDiagramPins (pin_type : PinType) (pins : list string).

Definition move_type (m : Move) : MoveType :=
  match m with
  | MoveBlock _ => MOVE_BLOCK
  | ReorderBlockPins _ _ => REORDER_BLOCK_PINS
  | ReorderDiagramPins _ _ => REORDER_DIAGRAM_PINS
  end.

(** [any(p.is_locked for p in pins.values())]. *)
Definition any_block_pin_locked (s : Scene) (pins : list (string * BlockPin)) : bool :=
  existsb (fun p => pin_is_locked s (bp_wires p)) (dict_values pins).

Definition any_diagram_pin_locked (s : Scene) (pins : list DiagramPin) : bool :=
  existsb (fun p => pin_is_locked s (dp_wires p)) pins.

(** The list of moves that [_run_optimizer_logic] builds. *)
Definition possible_moves (s : Scene) : list Move :=
  let blocks := scene_blocks s in
  let diagram_inputs := scene_diagram_pins DiagramInputPin s in
  let diagram_outputs := scene_diagram_pins DiagramOutputPin s in
  omap (fun block => if negb (block_is_locked block)
                     then Some (MoveBlock (block_name block)) else None) blocks
  ++ flat_map (fun block =>
       (if (1 <? Z.of_nat (length (input_pins block)))
           && negb (any_block_pin_locked s (input_pins block))
        then [ReorderBlockPins (block_name block) INPUT] else [])
       ++
       (if (1 <? Z.of_nat (length (output_pins block)))
           && negb (any_block_pin_locked s (output_pins block))
        then [ReorderBlockPins (block_name block) OUTPUT] else [])) blocks
  ++ (if (1 <? Z.of_nat (length diagram_inputs))
         && negb (any_diagram_pin_locked s diagram_inputs)
      then [ReorderDiagramPins OUTPUT (map dp_name diagram_inputs)] else [])
  ++ (if (1 <? Z.of_nat (length diagram_outputs))
         && negb (any_diagram_pin_locked s diagram_outputs)
      then [ReorderDiagramPins INPUT (map dp_name diagram_outputs)] else []).

(** ** Optimisation (optimization.py) *)

(** What the pseudo-random generator yields in one iteration of the loop:
    the index for [random.choice], the two [random()] draws behind
    [random.uniform], the permutation of [random.shuffle] and the draw of
    [random.random()] in the annealing strategy. *)
Record Draw := mkDraw {
  choice : nat;
  uniform_x : Qc;
  uniform_y : Qc;
  shuffle : list string -> list string;
  random : Qc
}.

(** [random.uniform(a, b)] is [a + (b - a) * random()]. *)
Definition uniform (a b u : Qc) : Qc := (a + (b - a) * u)%Qc.

(** [random.choice(seq)]; [None] stands for the [IndexError] on an empty
    sequence. *)
Definition random_choice {A} (r : nat) (l : list A) : option A :=
  l !! (r mod length l)%nat.

Inductive Exn := IndexError | ZeroDivisionError.

Inductive Outcome (A : Type) :=
| Return (a : A)
| Raise (e : Exn).
Arguments Return {A} a.
Arguments Raise {A} e.

(** The state of a strategy, a dictionary from names to floats. *)
Abbreviation StrategyState := (gmap string Qc).

(** A strategy sees the draw of [random.random()], the current cost, the new
    cost and its state. *)
Definition Strategy := Qc -> Qc -> Qc -> StrategyState -> bool.

(** What the loop works on: the scene and the shutdown flag of the main
    window, the cost it tracks, and the state of the strategy. *)
Record LoopState := mkLoopState {
  scene : Scene;
  is_shutting_down : bool;
  current_cost : Qc;
  strategy_state : StrategyState
}.

Section Optimization.
Context (qt : QtPaths).
(** [math.exp] *)
Context (exp : Qc -> Qc).

Definition _apply_and_evaluate_move (s : Scene) (move : Move) (move_step : Qc)
    (cost_params : option Params) (d : Draw)
  : Scene * option (Qc * (Scene -> Scene)) :=
  let applied :=
    match move with
    | MoveBlock name =>
        match find_block name s with
        | None => None
        | Some block =>
            if block_is_locked block then None
            else
              let original_pos := block_pos block in
              let new_pos :=
                mkPoint (px original_pos + uniform (- move_step) move_step (uniform_x d))%Qc
                        (py original_pos + uniform (- move_step) move_step (uniform_y d))%Qc in
              let snapped_pos := snap_point new_pos in
              let proposed_rect :=
                mkRect (px snapped_pos) (py snapped_pos) (rect_w block) (rect_h block) in
              if _is_rect_overlapping s proposed_rect (Some (BlockRef name)) then None
              else
                Some ((move_block s (block_name block) (px snapped_pos) (py snapped_pos)).2,
                      fun s' => (move_block s' (block_name block)
                                   (px original_pos) (py original_pos)).2)
        end
    | ReorderBlockPins name pin_type =>
        match find_block name s with
        | None => None
        | Some block =>
            let pins_dict := block_pins pin_type block in
            let original_order :=
              sorted Z.leb (fun k => default 0 (index <$> dict_get k pins_dict))
                     (dict_keys pins_dict) in
            let new_order := shuffle d original_order in
            Some ((set_block_pin_order s (block_name block) pin_type new_order).2,
                  fun s' => (set_block_pin_order s' (block_name block) pin_type
                               original_order).2)
        end
    | ReorderDiagramPins pin_type pins =>
        let pin_y := fun n =>
          default 0%Qc ((fun p => py (dp_pos p))
                        <$> find_diagram_pin (target_class pin_type) n s) in
        let original_order := sorted Qc_leb pin_y pins in
        let new_order := shuffle d original_order in
        Some ((set_diagram_pin_order s pin_type new_order).2,
              fun s' => (set_diagram_pin_order s' pin_type original_order).2)
    end in
  match applied with
  | None => (s, None)
  | Some (s', revert_func) =>
      (s', Some (calculate_diagram_cost qt s' cost_params, revert_func))
  end.

(** One pass through the body of the [for] loop, after the test of the
    shutdown flag.  [close_requested] tells whether a close event is
    waiting when [QApplication.processEvents()] runs. *)
Definition loop_body (possible_moves : list Move) (move_step : Qc)
    (reporting_interval : Z) (cost_params : option Params)
    (strategy_func : Strategy)
    (post_iteration_hook : option (StrategyState -> StrategyState))
    (i : nat) (d : Draw) (close_requested : bool) (st : LoopState)
  : Outcome LoopState :=
  match random_choice (choice d) possible_moves with
  | None => Raise IndexError
  | Some move =>
      match _apply_and_evaluate_move (scene st) move move_step cost_params d with
      | (s, None) =>
          Return (mkLoopState s (is_shutting_down st) (current_cost st)
                    (strategy_state st))
      | (s, Some (new_cost, revert_func)) =>
          let '(s, cost) :=
            if strategy_func (random d) (current_cost st) new_cost (strategy_state st)
            then (s, new_cost)
            else (revert_func s, current_cost st) in
          let state := match post_iteration_hook with
                       | Some hook => hook (strategy_state st)
                       | None => strategy_state st
                       end in
          if reporting_interval =? 0 then Raise ZeroDivisionError
          else if (Z.of_nat i + 1) mod reporting_interval =? 0
          then Return (mkLoopState s (is_shutting_down st || close_requested) cost state)
          else Return (mkLoopState s (is_shutting_down st) cost state)
      end
  end.

(** The [for] loop over the iterations that remain. *)
Fixpoint loop_from (possible_moves : list Move) (move_step : Qc)
    (reporting_interval : Z) (cost_params : option Params)
    (strategy_func : Strategy)
    (post_iteration_hook : option (StrategyState -> StrategyState))
    (draws : nat -> Draw) (events : nat -> bool)
    (range : list nat) (st : LoopState) : Outcome LoopState :=
  match range with
  | [] => Return st
  | i :: range' =>
      if is_shutting_down st then Return st
      else
        match loop_body possible_moves move_step reporting_interval cost_params
                strategy_func post_iteration_hook i (draws i) (events i) st with
        | Raise e => Raise e
        | Return st' =>
            loop_from possible_moves move_step reporting_interval cost_params
              strategy_func post_iteration_hook draws events range' st'
        end
  end.

(** [_run_optimization_loop]: the result holds the cost the function
    returns and the state it leaves behind. *)
Definition _run_optimization_loop (s : Scene) (shutting_down : bool)
    (possible_moves : list Move) (iterations : Z) (move_step : Qc)
    (reporting_interval : Z) (cost_params : option Params)
    (strategy_func : Strategy) (strategy_state : StrategyState)
    (post_iteration_hook : option (StrategyState -> StrategyState))
    (draws : nat -> Draw) (events : nat -> bool) : Outcome LoopState :=
  let current_cost := calculate_diagram_cost qt s cost_params in
  loop_from possible_moves move_step reporting_interval cost_params strategy_func
    post_iteration_hook draws events (seq 0 (Z.to_nat iterations))
    (mkLoopState s shutting_down current_cost strategy_state).

Definition _hill_climbing_strategy : Strategy :=
  fun _ current_cost new_cost state => Qc_ltb new_cost current_cost.

Definition run_randomized_hill_climbing (s : Scene) (shutting_down : bool)
    (possible_moves : list Move) (params : option Params)
    (draws : nat -> Draw) (events : nat -> bool) : Outcome LoopState :=
  let params := default empty_params params in
  let iterations := default conf.OPTIMIZER_RHC_DEFAULT_ITERATIONS (iterations params) in
  let move_step_grid_units :=
    default conf.OPTIMIZER_RHC_DEFAULT_MOVE_STEP_GRID_UNITS (move_step_grid_units params) in
  let reporting_interval :=
    default conf.OPTIMIZER_RHC_DEFAULT_REPORTING_INTERVAL (reporting_interval params) in
  let move_step := (of_Z conf.GRID_SIZE * move_step_grid_units)%Qc in
  _run_optimization_loop s shutting_down possible_moves iterations move_step
    reporting_interval (Some params) _hill_climbing_strategy ∅ None draws events.

Definition _simulated_annealing_strategy : Strategy :=
  fun random_draw current_cost new_cost state =>
    let delta := (new_cost - current_cost)%Qc in
    if Qc_ltb delta 0%Qc then true
    else
      let temperature := default 1%Qc (state !! "temperature") in
      if Qc_ltb temperature conf.OPTIMIZER_SA_MIN_TEMPERATURE then false
      else
        let acceptance_prob := exp (- delta / temperature)%Qc in
        if Qc_ltb random_draw acceptance_prob then true else false.

(** The hook that [run_simulated_annealing] defines:
    [state['temperature'] *= cooling_rate]. *)
Definition sa_post_hook (cooling_rate : Qc) (state : StrategyState) : StrategyState :=
  match state !! "temperature" with
  | Some t => <["temperature" := (t * cooling_rate)%Qc]> state
  | None => state
  end.

End Optimization.

(** ** The walk of the placement search, as the loop runs it *)

(** The corner test compares [x] with [1 - y], and [x] and [y] are multiples
    of the grid size: after the first turn the test never holds again, and
    the walk visits the cells to the right of the start, [n] of them from
    the cell after the [k]-th. *)
Fixpoint ray_search (n : nat) (occupied : QRectF -> bool)
    (item_width item_height : Qc) (is_centered : bool) (start_pos : QPointF)
    (k : Z) : QPointF :=
  match n with
  | O => start_pos
  | S n' =>
      let current_pos :=
        mkPoint (px start_pos + of_Z (conf.GRID_SIZE * (k + 1)))%Qc
                (py start_pos + of_Z 0)%Qc in
      if negb (occupied (candidate_rect item_width item_height is_centered current_pos))
      then current_pos
      else ray_search n' occupied item_width item_height is_centered start_pos (k + 1)
  end.


(** ** Example layouts *)

Definition pt (x y : Z) : QPointF := mkPoint (of_Z x) (of_Z y).

Definition rect (x y w h : Z) : QRectF := mkRect (of_Z x) (of_Z y) (of_Z w) (of_Z h).

(** A block without pins, its title above its top edge. *)
Definition plain_block (name : string) (x y w h : Z) : Block :=
  mkBlock name (pt x y) false (of_Z w) (of_Z h) (rect 40 (-24) 80 20) [] [].

(** A scene whose only block is wider than the search radius. *)
Definition wide_scene : Scene :=
  mkScene [IBlock (plain_block "Wide" 0 0 12000 40)] true.

(** The same blocks and pins, and one wire more. *)
Definition wide_scene_wired : Scene :=
  mkScene [IWire (mkWire 0 (BlockPinRef "Wide" "out") None None false);
           IBlock (plain_block "Wide" 0 0 12000 40)] true.

(** ** Notions used to state the properties *)



(** Curves that cross whenever both exist, of length the distance that the
    end points are apart along the two axes; the detailed mode finds
    nothing. *)
Definition taxicab_length (p : QPainterPath) : Qc :=
  match p with
  | EmptyPath => 0%Qc
  | CubicPath a _ _ b => (Qc_abs (px b - px a) + Qc_abs (py b - py a))%Qc
  end.

Definition crossing_paths : QtPaths :=
  mkQtPaths (fun a b => match a, b with
                        | CubicPath _ _ _ _, CubicPath _ _ _ _ => true
                        | _, _ => false
                        end)
            (fun _ _ => false) taxicab_length (fun _ _ => None) (fun _ _ => None).

(** Curves that never cross. *)
Definition separate_paths : QtPaths :=
  mkQtPaths (fun _ _ => false) (fun _ _ => false) taxicab_length
            (fun _ _ => None) (fun _ _ => None).

(** Two blocks in a row, the first output of the first wired to the input of
    the second and to a diagram output, and a diagram input wired to the
    first block by a locked wire. *)
Definition block_A : Block :=
  mkBlock "A" (pt 0 0) false (of_Z 160) (of_Z 40) (rect 40 (-24) 80 20)
          [("in", mkBlockPin 0 [2%nat])]
          [("out", mkBlockPin 0 [0%nat; 1%nat]); ("aux", mkBlockPin 1 [])].

Definition block_B : Block :=
  mkBlock "B" (pt 400 0) false (of_Z 160) (of_Z 40) (rect 40 (-24) 80 20)
          [("in", mkBlockPin 0 [0%nat])] [].

Definition pin_box : QRectF := rect (-10) (-10) 20 20.

Definition wire_A_B : Wire :=
  mkWire 0 (BlockPinRef "A" "out") (Some (BlockPinRef "B" "in")) None false.
Definition wire_A_Out : Wire :=
  mkWire 1 (BlockPinRef "A" "out") (Some (DiagramPinRef DiagramOutputPin "Out")) None false.
Definition wire_In_A : Wire :=
  mkWire 2 (DiagramPinRef DiagramInputPin "In") (Some (BlockPinRef "A" "in")) None true.

Definition two_block_scene : Scene :=
  mkScene [IWire wire_In_A; IWire wire_A_Out; IWire wire_A_B;
           IDiagramPin (mkDiagramPin DiagramOutputPin "Out" (pt 680 0) pin_box [1%nat]);
           IDiagramPin (mkDiagramPin DiagramInputPin "In" (pt (-120) 0) pin_box [2%nat]);
           IBlock block_B; IBlock block_A] true.


(** A rational function that is positive everywhere and at most 1 on
    arguments at most zero, as [math.exp] is; it stands for [math.exp] where
    an example runs the annealing strategy. *)
Definition exp_model (x : Qc) : Qc := (1 / (1 - x + x * x / of_Z 2))%Qc.

(** A run on the two blocks: both iterations pick the move of block "A",
    first 80 to the right, then 80 back to the left; the draw of
    [random.random()] is 0; a close event waits when the second iteration
    processes the events. *)
Definition demo_draws (i : nat) : Draw :=
  match i with
  | O => mkDraw 1 (Q2Qc (3 # 4)) (Q2Qc (1 # 2)) (fun l => l) 0%Qc
  | _ => mkDraw 1 (Q2Qc (1 # 4)) (Q2Qc (1 # 2)) (fun l => l) 0%Qc
  end.

Definition demo_events (i : nat) : bool :=
  match i with
  | 1%nat => true
  | _ => false
  end.

(** [{'iterations': n, 'reporting_interval': 1}] *)
Definition demo_params (n : Z) : option Params :=
  Some (mkParams (Some n) None (Some 1) None None None None).

(** Apply a move, then call the revert function that the applier returned;
    [None] when the applier declared the move invalid. *)
Definition apply_then_revert (qt : QtPaths) (s : Scene) (move : Move) (move_step : Qc)
    (cost_params : option Params) (d : Draw) : option Scene :=
  match _apply_and_evaluate_move qt s move move_step cost_params d with
  | (s', Some (_, revert_func)) => Some (revert_func s')
  | (_, None) => None
  end.

(** One block and two diagram inputs.  "P1" is above "P2", and [items()]
    lists "P2" first, as Qt does for the pin that was added last.  The pins
    are where [realign_diagram_pins] puts them. *)
Definition pin_order_scene : Scene :=
  mkScene [IDiagramPin (mkDiagramPin DiagramInputPin "P2" (pt (-120) 40) pin_box []);
           IDiagramPin (mkDiagramPin DiagramInputPin "P1" (pt (-120) (-20)) pin_box []);
           IBlock (plain_block "B" 0 0 160 40)] true.

(** The same scene with the two pins in each other's place. *)
Definition pin_order_scene_swapped : Scene :=
  mkScene [IDiagramPin (mkDiagramPin DiagramInputPin "P2" (pt (-120) (-20)) pin_box []);
           IDiagramPin (mkDiagramPin DiagramInputPin "P1" (pt (-120) 40) pin_box []);
           IBlock (plain_block "B" 0 0 160 40)] true.

Definition draw_with_shuffle (f : list string -> list string) : Draw :=
  mkDraw 0 (Q2Qc (1 # 2)) (Q2Qc (1 # 2)) f 0%Qc.

(** Replace, in a list of blocks, the first block of a name. *)
Definition update_named (name : string) (f : Block -> Block) (l : list Block) : list Block :=
  update_first (fun b => if decide (block_name b = name) then Some (f b) else None) l.

(** The indices of the pins of one direction are the numbers from 0 to the
    number of pins less one, each once (the invariant that [add_input_pin],
    [add_output_pin] and [realign_pins] maintain). *)
Definition dense_indices (pins : list (string * BlockPin)) : Prop :=
  (fun kp => index kp.2) <$> pins ≡ₚ Z.of_nat <$> seq 0 (length pins).

(** [enumerate] from another first index. *)
Definition enumerate_from (m : nat) (l : list string) : list (Z * string) :=
  zip (map Z.of_nat (seq m (length l))) l.

(** A point of the grid. *)
Definition on_grid (p : QPointF) : Prop :=
  exists a b : Z, p = mkPoint (of_Z (conf.GRID_SIZE * a)) (of_Z (conf.GRID_SIZE * b)).

(* ===================================================================== *)
(** * Theorems *)
(* ===================================================================== *)

(** ** Placement search *)

Lemma at_corner_on_axis k : 1 <= k -> at_corner (conf.GRID_SIZE * k) 0 = false.
Proof.
  intros Hk. unfold at_corner, conf.GRID_SIZE.
  repeat match goal with
         | |- context [?a =? ?b] => destruct (Z.eqb_spec a b); try lia
         | |- context [?a <? ?b] => destruct (Z.ltb_spec a b); try lia
         end; reflexivity.
Qed.

Lemma placement_loop_ray n : forall fuel occupied w h c start k,
  1 <= k -> k + Z.of_nat n = 500 -> (n < fuel)%nat ->
  placement_loop fuel occupied w h c start (conf.GRID_SIZE * k) 0 conf.GRID_SIZE 0
  = Some (ray_search n occupied w h c start k).
Proof.
  induction n as [|n IH]; intros fuel occupied w h c start k Hk Hn Hf;
    (destruct fuel as [|fuel]; [lia|]); cbn [placement_loop ray_search].
  - assert (k = 500) as -> by lia. reflexivity.
  - replace (conf.GRID_SIZE * k * (conf.GRID_SIZE * k) + 0 * 0
             <? conf.BLOCK_PLACEMENT_SEARCH_MAX_RADIUS ^ 2) with true.
    2: { symmetry. apply Z.ltb_lt. unfold conf.GRID_SIZE.
        change (conf.BLOCK_PLACEMENT_SEARCH_MAX_RADIUS ^ 2) with 100000000. nia. }
    rewrite at_corner_on_axis by done.
    replace (conf.GRID_SIZE * k + conf.GRID_SIZE) with (conf.GRID_SIZE * (k + 1))
      by (unfold conf.GRID_SIZE; lia).
    replace (0 + 0) with 0 by lia.
    destruct (negb _); [done|].
    apply IH; lia.
Qed.

Lemma placement_loop_start fuel occupied w h c start :
  placement_loop (S fuel) occupied w h c start 0 0 0 (- conf.GRID_SIZE)
  = let current_pos := mkPoint (px start + of_Z (conf.GRID_SIZE * 1))%Qc
                               (py start + of_Z 0)%Qc in
    if negb (occupied (candidate_rect w h c current_pos)) then Some current_pos
    else placement_loop fuel occupied w h c start (conf.GRID_SIZE * 1) 0 conf.GRID_SIZE 0.
Proof. reflexivity. Qed.

Lemma ray_search_S n occupied w h c start k :
  ray_search (S n) occupied w h c start k
  = let current_pos :=
      mkPoint (px start + of_Z (conf.GRID_SIZE * (k + 1)))%Qc (py start + of_Z 0)%Qc in
    if negb (occupied (candidate_rect w h c current_pos)) then current_pos
    else ray_search n occupied w h c start (k + 1).
Proof. reflexivity. Qed.

Lemma if_Some {A} (b : bool) (x y : A) :
  Some (if b then x else y) = if b then Some x else Some y.
Proof. by destruct b. Qed.

Lemma find_safe_placement_ray s w h ignore hint (c : bool) :
  let hint' := default (mkPoint 0%Qc 0%Qc) hint in
  let start_pos :=
    if c then snap_point hint'
    else mkPoint (snap (px hint' - w / of_Z 2)%Qc) (snap (py hint' - h / of_Z 2)%Qc) in
  let occupied := fun r => _is_rect_overlapping s r ignore in
  find_safe_placement s w h ignore hint c
  = Some (if negb (occupied (candidate_rect w h c start_pos)) then start_pos
          else ray_search 500 occupied w h c start_pos 0).
Proof.
  intros hint' start_pos occupied. unfold find_safe_placement.
  fold hint' start_pos. cbv zeta.
  change (_is_rect_overlapping s (candidate_rect w h c start_pos) ignore)
    with (occupied (candidate_rect w h c start_pos)).
  fold occupied.
  destruct (negb (occupied (candidate_rect w h c start_pos))); [reflexivity|].
  unfold placement_fuel.
  rewrite (placement_loop_start 999). cbv zeta.
  rewrite (placement_loop_ray 499) by lia.
  rewrite (ray_search_S 499). cbv zeta.
  change (0 + 1) with 1.
  symmetry. apply if_Some.
Qed.

(** *** What the placement search does guarantee *)

Lemma of_Z_add (a b : Z) : (of_Z a + of_Z b)%Qc = of_Z (a + b).
Proof.
  unfold of_Z. apply Qc_is_canon. unfold Qcplus, Q2Qc. cbn [this].
  rewrite !Qred_correct. unfold Qeq, inject_Z, Qplus. cbn. lia.
Qed.

Lemma snap_on_grid (v : Qc) : exists a : Z, snap v = of_Z (conf.GRID_SIZE * a).
Proof. unfold snap. eexists. f_equal. apply Z.mul_comm. Qed.

Lemma placement_loop_result fuel : forall occupied w h c start x y dx dy pos,
  on_grid start ->
  (conf.GRID_SIZE | x) -> (conf.GRID_SIZE | y) ->
  (conf.GRID_SIZE | dx) -> (conf.GRID_SIZE | dy) ->
  placement_loop fuel occupied w h c start x y dx dy = Some pos ->
  on_grid pos /\ (pos = start \/ occupied (candidate_rect w h c pos) = false).
Proof.
  induction fuel as [|fuel IH];
    intros occupied w h c start x y dx dy pos Hstart Hx Hy Hdx Hdy Hloop; [done|].
  cbn [placement_loop] in Hloop. cbv zeta in Hloop.
  destruct (x * x + y * y <? _).
  2: { injection Hloop as <-. split; [done|by left]. }
  destruct (at_corner x y).
  - destruct (negb (occupied _)) eqn:E.
    + injection Hloop as <-. apply negb_true_iff in E. split; [|by right].
      destruct Hstart as (a & b & ->), Hx as [x' ->], Hy as [y' ->],
        Hdx as [dx' ->], Hdy as [dy' ->]. cbn [px py]. rewrite !of_Z_add.
      exists (a + x' - dy'), (b + y' + dx'). f_equal; f_equal; unfold conf.GRID_SIZE; lia.
    + apply (IH _ _ _ _ _ _ _ _ _ _ Hstart) in Hloop; [done|..].
      * apply Z.divide_add_r; [done|]. by apply Z.divide_opp_r.
      * by apply Z.divide_add_r.
      * by apply Z.divide_opp_r.
      * done.
  - destruct (negb (occupied _)) eqn:E.
    + injection Hloop as <-. apply negb_true_iff in E. split; [|by right].
      destruct Hstart as (a & b & ->), Hx as [x' ->], Hy as [y' ->],
        Hdx as [dx' ->], Hdy as [dy' ->]. cbn [px py]. rewrite !of_Z_add.
      exists (a + x' + dx'), (b + y' + dy'). f_equal; f_equal; unfold conf.GRID_SIZE; lia.
    + apply (IH _ _ _ _ _ _ _ _ _ _ Hstart) in Hloop; [done|..]; try done;
        by apply Z.divide_add_r.
Qed.

(** The position that the search returns is on the grid, and it is either
    the snapped hint or a position whose rectangle overlaps nothing. *)
Lemma find_safe_placement_result (s : Scene) (w h : Qc) (ignore : option ItemRef)
    (hint : option QPointF) (c : bool) (pos : QPointF) :
  let hint' := default (mkPoint 0%Qc 0%Qc) hint in
  let start_pos :=
    if c then snap_point hint'
    else mkPoint (snap (px hint' - w / of_Z 2)%Qc) (snap (py hint' - h / of_Z 2)%Qc) in
  find_safe_placement s w h ignore hint c = Some pos ->
  on_grid pos
  /\ (pos = start_pos \/ _is_rect_overlapping s (candidate_rect w h c pos) ignore = false).
Proof.
  intros hint' start_pos Hpos.
  assert (on_grid start_pos) as Hstart.
  { unfold start_pos, snap_point.
    destruct c; [destruct (snap_on_grid (px hint')) as [a ->],
                          (snap_on_grid (py hint')) as [b ->]
                |destruct (snap_on_grid (px hint' - w / of_Z 2)%Qc) as [a ->],
                          (snap_on_grid (py hint' - h / of_Z 2)%Qc) as [b ->]];
      by exists a, b. }
  unfold find_safe_placement in Hpos. fold hint' in Hpos. fold start_pos in Hpos.
  cbv zeta in Hpos.
  destruct (negb (_is_rect_overlapping s _ ignore)) eqn:E.
  - injection Hpos as <-. split; [done|by left].
  - apply (placement_loop_result _ (fun r => _is_rect_overlapping s r ignore))
      in Hpos; [done|done|..].
    + by exists 0.
    + by exists 0.
    + by exists 0.
    + exists (-1). reflexivity.
Qed.

Lemma ray_search_finds n : forall occupied w h c start k j,
  k < j <= k + Z.of_nat n ->
  occupied (candidate_rect w h c
              (mkPoint (px start + of_Z (conf.GRID_SIZE * j))%Qc (py start + of_Z 0)%Qc))
    = false ->
  occupied (candidate_rect w h c (ray_search n occupied w h c start k)) = false.
Proof.
  induction n as [|n IH]; intros occupied w h c start k j Hj Hfree; [lia|].
  cbn [ray_search]. cbv zeta. destruct (negb (occupied _)) eqn:E.
  - by apply negb_true_iff in E.
  - apply (IH _ _ _ _ _ _ j); [|done].
    destruct (decide (j = k + 1)) as [->|Hne]; [|lia].
    rewrite Hfree in E. discriminate.
Qed.

(** The search does find a position that overlaps nothing when the hint
    position is free or one of the 500 cells to its right is. *)
Lemma find_safe_placement_finds_on_ray (s : Scene) (w h : Qc) (ignore : option ItemRef)
    (hint : option QPointF) (c : bool) (j : Z) :
  let hint' := default (mkPoint 0%Qc 0%Qc) hint in
  let start_pos :=
    if c then snap_point hint'
    else mkPoint (snap (px hint' - w / of_Z 2)%Qc) (snap (py hint' - h / of_Z 2)%Qc) in
  1 <= j <= 500 ->
  _is_rect_overlapping s
    (candidate_rect w h c
       (mkPoint (px start_pos + of_Z (conf.GRID_SIZE * j))%Qc (py start_pos + of_Z 0)%Qc))
    ignore = false ->
  exists pos,
    find_safe_placement s w h ignore hint c = Some pos
    /\ _is_rect_overlapping s (candidate_rect w h c pos) ignore = false.
Proof.
  intros hint' start_pos Hj Hfree.
  rewrite find_safe_placement_ray. eexists. split; [reflexivity|].
  fold hint'. fold start_pos.
  destruct (negb (_is_rect_overlapping s _ ignore)) eqn:E.
  - by apply negb_true_iff in E.
  - apply (ray_search_finds 500 (fun r => _is_rect_overlapping s r ignore) _ _ _ _ 0 j);
      [lia|done].
Qed.

Lemma ray_search_ext n : forall occ1 occ2 w h c start k,
  (forall r, occ1 r = occ2 r) ->
  ray_search n occ1 w h c start k = ray_search n occ2 w h c start k.
Proof.
  induction n as [|n IH]; intros occ1 occ2 w h c start k Hext; cbn [ray_search].
  - reflexivity.
  - rewrite Hext. destruct (negb _); [reflexivity|]. by apply IH.
Qed.

(** C7. Determinism of the placement search: the search always returns, and
    for the same size, hint and centring flag two calls return the same
    position whenever the two scenes give the same answer to every overlap
    test; nothing else enters the result. *)
Theorem find_safe_placement_deterministic
    (s1 s2 : Scene) (ignore1 ignore2 : option ItemRef) (item_width item_height : Qc)
    (hint : option QPointF) (is_centered : bool) :
  (forall r, _is_rect_overlapping s1 r ignore1 = _is_rect_overlapping s2 r ignore2) ->
  exists pos,
    find_safe_placement s1 item_width item_height ignore1 hint is_centered = Some pos /\
    find_safe_placement s2 item_width item_height ignore2 hint is_centered = Some pos.
Proof.
  intros Hext. rewrite !find_safe_placement_ray. cbv zeta.
  rewrite Hext.
  rewrite (ray_search_ext 500 _ (fun r => _is_rect_overlapping s2 r ignore2))
    by (intros r; apply Hext).
  eexists. split; reflexivity.
Qed.

Lemma find_safe_placement_deterministic_witness :
  exists pos,
    find_safe_placement wide_scene (of_Z 160) (of_Z 40) None (Some (pt 80 20)) false
      = Some pos /\
    find_safe_placement wide_scene_wired (of_Z 160) (of_Z 40) None (Some (pt 80 20)) false
      = Some pos.
Proof.
  apply (find_safe_placement_deterministic wide_scene wide_scene_wired None None).
  intros r. reflexivity.
Defined.

(** C6. The walk is not a spiral.  The scene holds one block, 12000 wide and
    40 high at the origin; a 160 by 40 item is placed with the hint (80, 20),
    which snaps to the origin.  The cell at (0, 60), three grid steps below
    the hint, is free, yet the search returns the origin, where the item
    overlaps the block. *)
Lemma find_safe_placement_misses_free_cell :
  find_safe_placement wide_scene (of_Z 160) (of_Z 40) None (Some (pt 80 20)) false
    = Some (pt 0 0)
  /\ _is_rect_overlapping wide_scene (candidate_rect (of_Z 160) (of_Z 40) false (pt 0 0)) None
     = true
  /\ _is_rect_overlapping wide_scene (candidate_rect (of_Z 160) (of_Z 40) false (pt 0 60)) None
     = false.
Proof. repeat split; vm_compute; reflexivity. Qed.

(** ** Numbers *)

Lemma Qc_ltb_lt a b : Qc_ltb a b = true <-> (a < b)%Qc.
Proof. unfold Qc_ltb. apply bool_decide_eq_true. Qed.

Lemma Qc_ltb_ge a b : Qc_ltb a b = false <-> (b <= a)%Qc.
Proof.
  unfold Qc_ltb. rewrite bool_decide_eq_false. split.
  - apply Qcnot_lt_le.
  - apply Qcle_not_lt.
Qed.

Lemma Qc_leb_le a b : Qc_leb a b = true <-> (a <= b)%Qc.
Proof. unfold Qc_leb. apply bool_decide_eq_true. Qed.

(** ** Cost evaluator *)


(** C4. The total cost is the intersection score times the intersection
    weight plus the length score times the wire length weight; a weight is
    the entry of the caller's parameters, 100 for the intersections and 1/10
    for the length where the caller gives none. *)
Theorem calculate_diagram_cost_weighted_sum (qt : QtPaths) (s : Scene) :
  (forall p : Params,
     calculate_diagram_cost qt s (Some p)
     = (_calculate_intersection_score qt s
          * default (of_Z 100) (intersection_weight p)
        + _calculate_total_wire_length qt s
          * default (Q2Qc (1 # 10)) (wirelength_weight p))%Qc)
  /\ (forall (p : Params) (iw lw : Qc),
        intersection_weight p = Some iw -> wirelength_weight p = Some lw ->
        calculate_diagram_cost qt s (Some p)
        = (_calculate_intersection_score qt s * iw
           + _calculate_total_wire_length qt s * lw)%Qc)
  /\ calculate_diagram_cost qt s None
     = (_calculate_intersection_score qt s * of_Z 100
        + _calculate_total_wire_length qt s * Q2Qc (1 # 10))%Qc
  /\ calculate_diagram_cost qt s (Some empty_params)
     = calculate_diagram_cost qt s None.
Proof.
  repeat split.
  intros p iw lw Hi Hl. unfold calculate_diagram_cost. cbn.
  rewrite Hi, Hl. reflexivity.
Qed.

Lemma calculate_diagram_cost_weighted_sum_witness :
  calculate_diagram_cost crossing_paths two_block_scene
    (Some (mkParams None None None None None (Some (of_Z 7)) (Some (of_Z 2))))
  = (_calculate_intersection_score crossing_paths two_block_scene * of_Z 7
     + _calculate_total_wire_length crossing_paths two_block_scene * of_Z 2)%Qc.
Proof.
  apply (proj1 (proj2 (calculate_diagram_cost_weighted_sum crossing_paths two_block_scene)));
    reflexivity.
Defined.







(** ** Locks and move generation *)

Lemma pin_is_locked_iff (s : Scene) (wires : list nat) :
  pin_is_locked s wires = true
  <-> exists id w, id ∈ wires /\ find_wire id s = Some w /\ wire_is_locked w = true.
Proof.
  unfold pin_is_locked. rewrite existsb_exists. split.
  - intros (id & Hin & Hl). destruct (find_wire id s) as [w|] eqn:E; [|done].
    exists id, w. by rewrite list_elem_of_In.
  - intros (id & w & Hin & Hf & Hl). exists id. rewrite <- list_elem_of_In.
    split; [done|]. by rewrite Hf.
Qed.

Lemma any_block_pin_locked_false (s : Scene) (pins : list (string * BlockPin)) :
  any_block_pin_locked s pins = false ->
  forall k p, (k, p) ∈ pins -> pin_is_locked s (bp_wires p) = false.
Proof.
  unfold any_block_pin_locked, dict_values. intros H k p Hin.
  destruct (pin_is_locked s (bp_wires p)) eqn:E; [|done].
  rewrite <- H. symmetry. apply existsb_exists. exists p. split; [|done].
  apply list_elem_of_In, list_elem_of_fmap. by exists (k, p).
Qed.

Lemma any_diagram_pin_locked_false (s : Scene) (pins : list DiagramPin) :
  any_diagram_pin_locked s pins = false ->
  forall p, p ∈ pins -> pin_is_locked s (dp_wires p) = false.
Proof.
  unfold any_diagram_pin_locked. intros H p Hin.
  destruct (pin_is_locked s (dp_wires p)) eqn:E; [|done].
  rewrite <- H. symmetry. apply existsb_exists. exists p.
  by rewrite <- list_elem_of_In.
Qed.

Lemma length_gt_1 {A} (l : list A) : (1 <? Z.of_nat (length l)) = true -> (1 < length l)%nat.
Proof. intros H. apply Z.ltb_lt in H. lia. Qed.

(** C10. A pin is locked exactly when one of its wires is locked: the lock
    of a pin is computed from the wires of the scene and stored nowhere.  A
    move that reorders the pins of a block is in the list of moves only for
    a block of the scene with more than one pin of that direction, none of
    them locked, and a move that reorders diagram pins only when there is
    more than one diagram pin of that kind, none of them locked. *)
Theorem reorder_moves_respect_locks (s : Scene) :
  (forall wires : list nat,
     pin_is_locked s wires = true
     <-> exists id w, id ∈ wires /\ find_wire id s = Some w /\ wire_is_locked w = true)
  /\ (forall name pin_type,
        ReorderBlockPins name pin_type ∈ possible_moves s ->
        exists block,
          block ∈ scene_blocks s /\ block_name block = name
          /\ (1 < length (block_pins pin_type block))%nat
          /\ forall k p, (k, p) ∈ block_pins pin_type block ->
                         pin_is_locked s (bp_wires p) = false)
  /\ (forall pin_type names,
        ReorderDiagramPins pin_type names ∈ possible_moves s ->
        names = map dp_name (scene_diagram_pins (target_class pin_type) s)
        /\ (1 < length (scene_diagram_pins (target_class pin_type) s))%nat
        /\ forall p, p ∈ scene_diagram_pins (target_class pin_type) s ->
                     pin_is_locked s (dp_wires p) = false).
Proof.
  split; [apply pin_is_locked_iff|]. split.
  - intros name pin_type Hin. unfold possible_moves in Hin.
    rewrite !elem_of_app in Hin. destruct Hin as [Hin|[Hin|[Hin|Hin]]].
    + apply list_elem_of_omap in Hin as (b & _ & Hb).
      destruct (negb (block_is_locked b)); discriminate.
    + apply list_elem_of_In, in_flat_map in Hin as (b & Hb & Hin).
      apply list_elem_of_In in Hb. apply in_app_or in Hin as [Hin|Hin].
      * destruct (1 <? Z.of_nat (length (input_pins b))) eqn:Hlen; [|done].
        destruct (any_block_pin_locked s (input_pins b)) eqn:Hlock; [done|].
        cbn in Hin. destruct Hin as [Hin|[]]. injection Hin as <- <-.
        exists b. repeat split; [done|by apply length_gt_1|].
        by apply any_block_pin_locked_false.
      * destruct (1 <? Z.of_nat (length (output_pins b))) eqn:Hlen; [|done].
        destruct (any_block_pin_locked s (output_pins b)) eqn:Hlock; [done|].
        cbn in Hin. destruct Hin as [Hin|[]]. injection Hin as <- <-.
        exists b. repeat split; [done|by apply length_gt_1|].
        by apply any_block_pin_locked_false.
    + destruct (_ && _); [|by apply elem_of_nil in Hin].
      apply list_elem_of_singleton in Hin. discriminate.
    + destruct (_ && _); [|by apply elem_of_nil in Hin].
      apply list_elem_of_singleton in Hin. discriminate.
  - intros pin_type names Hin. unfold possible_moves in Hin.
    rewrite !elem_of_app in Hin. destruct Hin as [Hin|[Hin|[Hin|Hin]]].
    + apply list_elem_of_omap in Hin as (b & _ & Hb).
      destruct (negb (block_is_locked b)); discriminate.
    + apply list_elem_of_In, in_flat_map in Hin as (b & Hb & Hin).
      apply in_app_or in Hin as [Hin|Hin];
        (destruct (_ && _); cbn in Hin;
         [destruct Hin as [Hin|[]]; discriminate | destruct Hin]).
    + destruct (1 <? _) eqn:Hlen; [|by apply elem_of_nil in Hin].
      destruct (any_diagram_pin_locked s _) eqn:Hlock; [by apply elem_of_nil in Hin|].
      cbn in Hin. apply list_elem_of_singleton in Hin. injection Hin as -> ->.
      repeat split; [by apply length_gt_1|].
      by apply any_diagram_pin_locked_false.
    + destruct (1 <? _) eqn:Hlen; [|by apply elem_of_nil in Hin].
      destruct (any_diagram_pin_locked s _) eqn:Hlock; [by apply elem_of_nil in Hin|].
      cbn in Hin. apply list_elem_of_singleton in Hin. injection Hin as -> ->.
      repeat split; [by apply length_gt_1|].
      by apply any_diagram_pin_locked_false.
Qed.

Lemma reorder_moves_respect_locks_witness :
  pin_is_locked two_block_scene [2%nat] = true
  /\ exists block,
       block ∈ scene_blocks two_block_scene /\ block_name block = "A"
       /\ (1 < length (block_pins OUTPUT block))%nat
       /\ forall k p, (k, p) ∈ block_pins OUTPUT block ->
                      pin_is_locked two_block_scene (bp_wires p) = false.
Proof.
  destruct (reorder_moves_respect_locks two_block_scene) as (Hlock & Hblock & _).
  split.
  - apply Hlock. exists 2%nat, wire_In_A. repeat split. apply list_elem_of_here.
  - apply (Hblock "A" OUTPUT). apply list_elem_of_In. vm_compute. tauto.
Defined.

(** ** Acceptance strategies *)

Lemma sa_post_hook_temperature (cooling_rate t : Qc) (state : StrategyState) :
  state !! "temperature" = Some t ->
  sa_post_hook cooling_rate state !! "temperature" = Some (t * cooling_rate)%Qc.
Proof. intros H. unfold sa_post_hook. rewrite H. apply lookup_insert_eq. Qed.

(** C3. With [delta] the new cost minus the current cost and the temperature
    read from the state (1 when the state has none): a negative [delta] is
    accepted; otherwise a temperature below 1e-9 rejects, and a temperature
    of 1e-9 or more accepts exactly when the random draw is below
    [exp (- delta / temperature)].  The hook multiplies the temperature by
    the cooling rate and leaves the other entries alone, and the loop runs
    it after an iteration exactly when the move was applied: an iteration
    that the applier declared invalid leaves the state of the strategy as it
    was. *)
Theorem simulated_annealing_acceptance (qt : QtPaths) (exp : Qc -> Qc) :
  (forall (draw current_cost new_cost : Qc) (state : StrategyState),
     let delta := (new_cost - current_cost)%Qc in
     let temperature := default 1%Qc (state !! "temperature") in
     ((delta < 0)%Qc ->
      _simulated_annealing_strategy exp draw current_cost new_cost state = true)
     /\ ((0 <= delta)%Qc -> (temperature < Q2Qc (1 # 1000000000))%Qc ->
         _simulated_annealing_strategy exp draw current_cost new_cost state = false)
     /\ ((0 <= delta)%Qc -> (Q2Qc (1 # 1000000000) <= temperature)%Qc ->
         (_simulated_annealing_strategy exp draw current_cost new_cost state = true
          <-> (draw < exp (- delta / temperature))%Qc)))
  /\ (forall (cooling_rate t : Qc) (state : StrategyState),
        state !! "temperature" = Some t ->
        sa_post_hook cooling_rate state !! "temperature" = Some (t * cooling_rate)%Qc
        /\ forall k, k <> "temperature" ->
                     sa_post_hook cooling_rate state !! k = state !! k)
  /\ (forall possible_moves move_step reporting_interval cost_params cooling_rate
             i d close_requested st st',
        loop_body qt possible_moves move_step reporting_interval cost_params
          (_simulated_annealing_strategy exp) (Some (sa_post_hook cooling_rate))
          i d close_requested st = Return st' ->
        exists move,
          random_choice (choice d) possible_moves = Some move
          /\ strategy_state st'
             = match (_apply_and_evaluate_move qt (scene st) move move_step
                        cost_params d).2 with
               | Some _ => sa_post_hook cooling_rate (strategy_state st)
               | None => strategy_state st
               end).
Proof.
  split; [|split].
  - intros draw current_cost new_cost state delta temperature.
    unfold _simulated_annealing_strategy. fold delta temperature.
    change conf.OPTIMIZER_SA_MIN_TEMPERATURE with (Q2Qc (1 # 1000000000)).
    split; [|split].
    + intros Hd. by rewrite (proj2 (Qc_ltb_lt _ _) Hd).
    + intros Hd Ht. rewrite (proj2 (Qc_ltb_ge _ _) Hd).
      by rewrite (proj2 (Qc_ltb_lt _ _) Ht).
    + intros Hd Ht. rewrite (proj2 (Qc_ltb_ge _ _) Hd).
      rewrite (proj2 (Qc_ltb_ge _ _) Ht).
      destruct (Qc_ltb draw _) eqn:E.
      * apply Qc_ltb_lt in E. tauto.
      * apply Qc_ltb_ge in E. split; [discriminate|].
        intros Hlt. exfalso. by apply (Qcle_not_lt _ _ E).
  - intros cooling_rate t state Ht. split; [by apply sa_post_hook_temperature|].
    intros k Hk. unfold sa_post_hook. rewrite Ht. by apply lookup_insert_ne.
  - intros possible_moves move_step reporting_interval cost_params cooling_rate
      i d close_requested st st' Hbody.
    unfold loop_body in Hbody.
    destruct (random_choice (choice d) possible_moves) as [move|]; [|discriminate].
    exists move. split; [done|].
    destruct (_apply_and_evaluate_move qt (scene st) move move_step cost_params d)
      as [s [[new_cost revert_func]|]]; cbn [snd].
    + destruct (_simulated_annealing_strategy _ _ _ _ _);
        destruct (reporting_interval =? 0); try discriminate;
        destruct (_ mod _ =? 0); by injection Hbody as <-.
    + by injection Hbody as <-.
Qed.


Lemma simulated_annealing_acceptance_witness :
  _simulated_annealing_strategy exp_model 0%Qc (of_Z 5) (of_Z 3)
    {["temperature" := of_Z 10]} = true
  /\ _simulated_annealing_strategy exp_model 0%Qc (of_Z 3) (of_Z 5)
       {["temperature" := 0%Qc]} = false
  /\ (_simulated_annealing_strategy exp_model (Q2Qc (1 # 2)) (of_Z 3) (of_Z 5)
        {["temperature" := of_Z 10]} = true
      <-> (Q2Qc (1 # 2) < exp_model (- (of_Z 5 - of_Z 3) / of_Z 10))%Qc)
  /\ sa_post_hook (Q2Qc (995 # 1000)) {["temperature" := of_Z 10]} !! "temperature"
     = Some (of_Z 10 * Q2Qc (995 # 1000))%Qc.
Proof.
  destruct (simulated_annealing_acceptance separate_paths exp_model)
    as (Hstrategy & Hhook & _).
  split; [|split; [|split]].
  - destruct (Hstrategy 0%Qc (of_Z 5) (of_Z 3) {["temperature" := of_Z 10]})
      as (Hneg & _ & _).
    apply Hneg. by vm_compute.
  - destruct (Hstrategy 0%Qc (of_Z 3) (of_Z 5) {["temperature" := 0%Qc]})
      as (_ & Hfrozen & _).
    apply Hfrozen; by vm_compute.
  - destruct (Hstrategy (Q2Qc (1 # 2)) (of_Z 3) (of_Z 5) {["temperature" := of_Z 10]})
      as (_ & _ & Hwarm).
    apply Hwarm; by vm_compute.
  - apply (Hhook (Q2Qc (995 # 1000)) (of_Z 10) {["temperature" := of_Z 10]}).
    reflexivity.
Defined.

(** ** The optimisation loop *)

Section Loop.
Context (qt : QtPaths).
Context (possible_moves : list Move) (move_step : Qc) (reporting_interval : Z).
Context (cost_params : option Params) (strategy_func : Strategy).
Context (post_iteration_hook : option (StrategyState -> StrategyState)).
Context (draws : nat -> Draw) (events : nat -> bool).

Local Abbreviation body := (loop_body qt possible_moves move_step reporting_interval
                          cost_params strategy_func post_iteration_hook).
Local Abbreviation loop := (loop_from qt possible_moves move_step reporting_interval
                          cost_params strategy_func post_iteration_hook draws events).

Lemma loop_from_stopped (range : list nat) (st : LoopState) :
  is_shutting_down st = true -> loop range st = Return st.
Proof. intros H. destruct range; cbn; [done|]. by rewrite H. Qed.

Lemma loop_from_app (l1 l2 : list nat) (st : LoopState) :
  loop (l1 ++ l2) st
  = match loop l1 st with
    | Return st1 => loop l2 st1
    | Raise e => Raise e
    end.
Proof.
  revert st. induction l1 as [|i l1 IH]; intros st; cbn [app loop_from]; [done|].
  destruct (is_shutting_down st) eqn:Hflag.
  - by rewrite loop_from_stopped.
  - destruct (body i (draws i) (events i) st); [apply IH|done].
Qed.

Lemma loop_body_total (i : nat) (d : Draw) (ev : bool) (st : LoopState) :
  possible_moves <> [] -> reporting_interval <> 0 ->
  exists st', body i d ev st = Return st'.
Proof.
  intros Hmoves Hri. unfold loop_body.
  destruct (random_choice (choice d) possible_moves) as [move|] eqn:Hc.
  - destruct (_apply_and_evaluate_move _ _ _ _ _ _) as [s [[c r]|]]; [|by eexists].
    destruct (strategy_func _ _ _ _);
      rewrite (proj2 (Z.eqb_neq _ _) Hri); destruct (_ mod _ =? 0); by eexists.
  - exfalso. unfold random_choice in Hc. apply lookup_ge_None in Hc.
    destruct possible_moves as [|m ms]; [done|].
    pose proof (Nat.mod_upper_bound (choice d) (length (m :: ms))) as Hlt.
    cbn [length] in *. lia.
Qed.

Lemma loop_from_total (range : list nat) (st : LoopState) :
  possible_moves <> [] -> reporting_interval <> 0 ->
  exists st', loop range st = Return st'.
Proof.
  intros Hmoves Hri. revert st.
  induction range as [|i range IH]; intros st; cbn [loop_from]; [by eexists|].
  destruct (is_shutting_down st); [by eexists|].
  destruct (loop_body_total i (draws i) (events i) st Hmoves Hri) as [st' ->].
  apply IH.
Qed.
End Loop.

Section HillClimbing.
Context (qt : QtPaths).
Context (possible_moves : list Move) (move_step : Qc) (reporting_interval : Z).
Context (cost_params : option Params).
Context (post_iteration_hook : option (StrategyState -> StrategyState)).
Context (draws : nat -> Draw) (events : nat -> bool).

Lemma loop_body_hill_climbing_cost (i : nat) (d : Draw) (ev : bool) (st st' : LoopState) :
  loop_body qt possible_moves move_step reporting_interval cost_params
    _hill_climbing_strategy post_iteration_hook i d ev st = Return st' ->
  (current_cost st' <= current_cost st)%Qc.
Proof.
  unfold loop_body. intros H.
  destruct (random_choice _ _) as [move|]; [|discriminate].
  destruct (_apply_and_evaluate_move _ _ _ _ _ _) as [s [[c r]|]].
  - unfold _hill_climbing_strategy in H.
    destruct (Qc_ltb c (current_cost st)) eqn:E;
      destruct (reporting_interval =? 0); try discriminate;
      destruct (_ mod _ =? 0); injection H as <-; cbn [current_cost];
      try apply Qcle_refl; apply Qclt_le_weak; by apply Qc_ltb_lt.
  - injection H as <-. apply Qcle_refl.
Qed.

Lemma loop_from_hill_climbing_cost (range : list nat) (st st' : LoopState) :
  loop_from qt possible_moves move_step reporting_interval cost_params
    _hill_climbing_strategy post_iteration_hook draws events range st = Return st' ->
  (current_cost st' <= current_cost st)%Qc.
Proof.
  revert st. induction range as [|i range IH]; intros st; cbn [loop_from].
  - intros [= <-]. apply Qcle_refl.
  - destruct (is_shutting_down st); [intros [= <-]; apply Qcle_refl|].
    destruct (loop_body _ _ _ _ _ _ _ _ _ _ _) as [st1|] eqn:Hb; [|discriminate].
    intros Hl. eapply Qcle_trans; [by apply IH|].
    by eapply loop_body_hill_climbing_cost.
Qed.
End HillClimbing.

Lemma seq_prefix (j k : nat) : (j <= k)%nat -> seq 0 k = seq 0 j ++ seq j (k - j).
Proof.
  intros H. replace k with (j + (k - j))%nat at 1 by lia. apply seq_app.
Qed.

Lemma run_prefix_total (qt : QtPaths) (s : Scene) (shutting_down : bool)
    (possible_moves : list Move) (move_step : Qc) (reporting_interval : Z)
    (cost_params : option Params) (strategy_func : Strategy) (state : StrategyState)
    (post_iteration_hook : option (StrategyState -> StrategyState))
    (draws : nat -> Draw) (events : nat -> bool) (iterations : Z) :
  possible_moves <> [] -> reporting_interval <> 0 ->
  exists st, _run_optimization_loop qt s shutting_down possible_moves iterations
               move_step reporting_interval cost_params strategy_func state
               post_iteration_hook draws events = Return st.
Proof. intros Hm Hr. unfold _run_optimization_loop. by apply loop_from_total. Qed.

(** A run of [k] iterations continues the run of [j <= k] iterations. *)
Lemma run_prefix (qt : QtPaths) (s : Scene) (shutting_down : bool)
    (possible_moves : list Move) (move_step : Qc) (reporting_interval : Z)
    (cost_params : option Params) (strategy_func : Strategy) (state : StrategyState)
    (post_iteration_hook : option (StrategyState -> StrategyState))
    (draws : nat -> Draw) (events : nat -> bool) (j k : Z) :
  j <= k ->
  _run_optimization_loop qt s shutting_down possible_moves k move_step
    reporting_interval cost_params strategy_func state post_iteration_hook draws events
  = match _run_optimization_loop qt s shutting_down possible_moves j move_step
            reporting_interval cost_params strategy_func state post_iteration_hook
            draws events with
    | Return stj =>
        loop_from qt possible_moves move_step reporting_interval cost_params
          strategy_func post_iteration_hook draws events
          (seq (Z.to_nat j) (Z.to_nat k - Z.to_nat j)) stj
    | Raise e => Raise e
    end.
Proof.
  intros Hjk. unfold _run_optimization_loop.
  rewrite (seq_prefix (Z.to_nat j) (Z.to_nat k)) by lia.
  apply loop_from_app.
Qed.

(** C2. Hill climbing accepts a move exactly when the new cost is below the
    current cost: the loop then keeps the new layout and takes the new cost,
    and otherwise reverts and keeps the current cost.  Whenever the run of
    [k] iterations returns, so does the run of [j <= k] iterations, and the
    cost tracked after [k] iterations is at most the cost tracked after [j];
    the cost that [run_randomized_hill_climbing] returns is at most the cost
    of the layout it started from.  A run with a list of moves that is not
    empty and a reporting interval that is not zero does return. *)
Theorem hill_climbing_never_worsens (qt : QtPaths) (s : Scene) (shutting_down : bool)
    (possible_moves : list Move) (params : option Params)
    (draws : nat -> Draw) (events : nat -> bool) :
  let p := default empty_params params in
  let move_step := (of_Z 20 * default (of_Z 8) (move_step_grid_units p))%Qc in
  let interval := default 20 (reporting_interval p) in
  let run := fun n : Z =>
    _run_optimization_loop qt s shutting_down possible_moves n move_step interval
      (Some p) _hill_climbing_strategy ∅ None draws events in
  (forall draw current_cost new_cost state,
     _hill_climbing_strategy draw current_cost new_cost state = true
     <-> (new_cost < current_cost)%Qc)
  /\ (forall i d close_requested st move s' new_cost revert_func,
        random_choice (choice d) possible_moves = Some move ->
        _apply_and_evaluate_move qt (scene st) move move_step (Some p) d
          = (s', Some (new_cost, revert_func)) ->
        interval <> 0 ->
        exists st',
          loop_body qt possible_moves move_step interval (Some p)
            _hill_climbing_strategy None i d close_requested st = Return st'
          /\ if bool_decide (new_cost < current_cost st)%Qc
             then scene st' = s' /\ current_cost st' = new_cost
             else scene st' = revert_func s' /\ current_cost st' = current_cost st)
  /\ run_randomized_hill_climbing qt s shutting_down possible_moves params draws events
     = run (default 200 (iterations p))
  /\ (forall (j k : Z) stk, j <= k -> run k = Return stk ->
        exists stj, run j = Return stj /\ (current_cost stk <= current_cost stj)%Qc)
  /\ (forall st,
        run_randomized_hill_climbing qt s shutting_down possible_moves params draws events
          = Return st ->
        (current_cost st <= calculate_diagram_cost qt s (Some p))%Qc)
  /\ (possible_moves <> [] -> interval <> 0 ->
      exists st,
        run_randomized_hill_climbing qt s shutting_down possible_moves params draws events
          = Return st).
Proof.
  intros p move_step interval run.
  split; [|split; [|split; [|split; [|split]]]].
  - intros draw c n state. apply Qc_ltb_lt.
  - intros i d ev st move s' new_cost revert_func Hchoice Happly Hinterval.
    unfold loop_body. rewrite Hchoice, Happly.
    unfold _hill_climbing_strategy, Qc_ltb.
    rewrite (proj2 (Z.eqb_neq _ _) Hinterval).
    destruct (bool_decide (new_cost < current_cost st)%Qc);
      destruct (_ mod _ =? 0); eexists; (split; [reflexivity|]); done.
  - reflexivity.
  - intros j k stk Hjk Hk. unfold run in *.
    rewrite (run_prefix _ _ _ _ _ _ _ _ _ _ _ _ j k Hjk) in Hk.
    destruct (_run_optimization_loop _ _ _ _ j _ _ _ _ _ _ _ _) as [stj|e];
      [|discriminate].
    exists stj. split; [done|]. by eapply loop_from_hill_climbing_cost.
  - intros st Hst. unfold run_randomized_hill_climbing, _run_optimization_loop in Hst.
    apply loop_from_hill_climbing_cost in Hst. exact Hst.
  - intros Hmoves Hinterval.
    apply (run_prefix_total qt s shutting_down possible_moves move_step interval
             (Some p) _hill_climbing_strategy ∅ None draws events
             (default 200 (iterations p)) Hmoves Hinterval).
Qed.

Lemma hill_climbing_never_worsens_witness :
  exists st,
    run_randomized_hill_climbing separate_paths two_block_scene false
      (possible_moves two_block_scene) (demo_params 5) demo_draws demo_events = Return st
    /\ (current_cost st
        <= calculate_diagram_cost separate_paths two_block_scene
             (Some (default empty_params (demo_params 5))))%Qc.
Proof.
  destruct (hill_climbing_never_worsens separate_paths two_block_scene false
              (possible_moves two_block_scene) (demo_params 5) demo_draws demo_events)
    as (_ & _ & _ & _ & Hcost & Hreturns).
  destruct Hreturns as [st Hst]; [by vm_compute|by vm_compute|].
  exists st. split; [exact Hst|]. by apply Hcost.
Defined.

(** ** Invalid moves *)

Lemma _is_rect_overlapping_true (s : Scene) (r : QRectF) (ignore : ItemRef) (other : Item) :
  other ∈ items s -> item_ref other <> ignore ->
  match other with
  | IBlock b => rect_intersects r (block_sceneBoundingRect b) = true
  | IDiagramPin p => rect_intersects r (pin_sceneBoundingRect p) = true
  | IWire _ => False
  end ->
  _is_rect_overlapping s r (Some ignore) = true.
Proof.
  intros Hin Hne Hov. unfold _is_rect_overlapping. apply existsb_exists.
  exists other. split; [by apply list_elem_of_In|].
  destruct (decide (Some (item_ref other) = Some ignore)) as [[=]|_]; [done|].
  by destruct other.
Qed.

(** C9. A trial move of an unlocked block whose snapped target rectangle
    intersects the bounding rectangle of another block or of a diagram pin:
    the applier returns [None] and the scene it leaves is the scene it was
    given, and the iteration of the loop returns the state it started from,
    whatever the strategy and the hook are: neither is consulted, and the
    current cost and the layout stay as they were. *)
Theorem invalid_move_is_skipped (qt : QtPaths) (possible_moves : list Move)
    (move_step : Qc) (reporting_interval : Z) (cost_params : option Params)
    (strategy_func : Strategy)
    (post_iteration_hook : option (StrategyState -> StrategyState))
    (i : nat) (d : Draw) (close_requested : bool) (st : LoopState)
    (name : string) (block : Block) (other : Item) :
  let new_pos :=
    mkPoint (px (block_pos block) + uniform (- move_step) move_step (uniform_x d))%Qc
            (py (block_pos block) + uniform (- move_step) move_step (uniform_y d))%Qc in
  let snapped_pos := snap_point new_pos in
  let proposed_rect :=
    mkRect (px snapped_pos) (py snapped_pos) (rect_w block) (rect_h block) in
  random_choice (choice d) possible_moves = Some (MoveBlock name) ->
  find_block name (scene st) = Some block ->
  block_is_locked block = false ->
  other ∈ items (scene st) ->
  item_ref other <> BlockRef name ->
  match other with
  | IBlock b => rect_intersects proposed_rect (block_sceneBoundingRect b) = true
  | IDiagramPin p => rect_intersects proposed_rect (pin_sceneBoundingRect p) = true
  | IWire _ => False
  end ->
  _apply_and_evaluate_move qt (scene st) (MoveBlock name) move_step cost_params d
    = (scene st, None)
  /\ loop_body qt possible_moves move_step reporting_interval cost_params
       strategy_func post_iteration_hook i d close_requested st = Return st.
Proof.
  intros new_pos snapped_pos proposed_rect Hchoice Hfind Hunlocked Hin Hne Hov.
  assert (_apply_and_evaluate_move qt (scene st) (MoveBlock name) move_step cost_params d
          = (scene st, None)) as Happly.
  { unfold _apply_and_evaluate_move. rewrite Hfind, Hunlocked.
    fold new_pos. fold snapped_pos. fold proposed_rect.
    by rewrite (_is_rect_overlapping_true _ _ _ other). }
  split; [exact Happly|].
  unfold loop_body. rewrite Hchoice, Happly. by destruct st.
Qed.

Lemma invalid_move_is_skipped_witness :
  let st := mkLoopState two_block_scene false (of_Z 92) ∅ in
  let d := mkDraw 1 (Q2Qc (15 # 16)) (Q2Qc (1 # 2)) (fun l => l) 0%Qc in
  _apply_and_evaluate_move separate_paths two_block_scene (MoveBlock "A")
    (of_Z 320) None d = (two_block_scene, None)
  /\ loop_body separate_paths (possible_moves two_block_scene) (of_Z 320) 1 None
       (fun _ _ _ _ => true) None 0 d false st = Return st.
Proof.
  intros st d.
  apply (invalid_move_is_skipped separate_paths (possible_moves two_block_scene)
           (of_Z 320) 1 None (fun _ _ _ _ => true) None 0%nat d false st
           "A" block_A (IBlock block_B)).
  - reflexivity.
  - reflexivity.
  - reflexivity.
  - apply list_elem_of_In. vm_compute. tauto.
  - discriminate.
  - vm_compute. reflexivity.
Defined.

(** ** Cancellation *)





(** ** Reverting a move *)

(** C1. Reverting a reordering of diagram pins does not restore the layout.
    [set_diagram_pin_order] gives the pins the vertical positions 0, 1, ...
    through [setPos], where the grid snapping of [itemChange] turns all of
    them into 0, and [realign_diagram_pins] then sorts pins that are level:
    the order that comes out is the order of [items()], for the trial order
    and for the original order alike.  In the scene with "P1" above "P2", a
    move of the list built by [_run_optimizer_logic], applied and reverted,
    leaves "P2" above "P1", whichever permutation the shuffle draws. *)
Lemma revert_leaves_diagram_pins_swapped :
  let move := ReorderDiagramPins OUTPUT ["P2"; "P1"] in
  possible_moves pin_order_scene = [MoveBlock "B"; move]
  /\ realign_diagram_pins pin_order_scene = pin_order_scene
  /\ apply_then_revert separate_paths pin_order_scene move (of_Z 160) None
       (draw_with_shuffle (fun l => l)) = Some pin_order_scene_swapped
  /\ apply_then_revert separate_paths pin_order_scene move (of_Z 160) None
       (draw_with_shuffle (@rev string)) = Some pin_order_scene_swapped
  /\ pin_order_scene_swapped <> pin_order_scene.
Proof.
  repeat split; try (vm_compute; reflexivity).
  intros H. discriminate H.
Qed.

(** On the same inputs the other two kinds of move are undone: the block is
    back at its position, the pins of the block have their indices again. *)
Lemma revert_restores_block_and_block_pins :
  apply_then_revert separate_paths two_block_scene (MoveBlock "A") (of_Z 160) None
    (demo_draws 0) = Some two_block_scene
  /\ apply_then_revert separate_paths two_block_scene (ReorderBlockPins "A" OUTPUT)
       (of_Z 160) None (draw_with_shuffle (@rev string)) = Some two_block_scene.
Proof. split; vm_compute; reflexivity. Qed.

(** *** What the layout API leaves alone *)

Lemma scene_blocks_update_block (name : string) (f : Block -> Block) (s : Scene) :
  scene_blocks (update_block name f s) = update_named name f (scene_blocks s).
Proof.
  unfold scene_blocks, update_block, update_named. cbn [items].
  induction (items s) as [|[b|p|w] l IH]; cbn; try done;
    repeat case_decide; cbn; rewrite ?IH; done.
Qed.

Lemma scene_wires_update_block (name : string) (f : Block -> Block) (s : Scene) :
  scene_wires (update_block name f s) = scene_wires s.
Proof.
  unfold scene_wires, update_block. cbn [items].
  induction (items s) as [|[b|p|w] l IH]; cbn; try done;
    repeat case_decide; cbn; rewrite ?IH; done.
Qed.

Lemma scene_blocks_update_diagram_pin c name f (s : Scene) :
  scene_blocks (update_diagram_pin c name f s) = scene_blocks s.
Proof.
  unfold scene_blocks, update_diagram_pin. cbn [items].
  induction (items s) as [|[b|p|w] l IH]; cbn; try done;
    repeat case_decide; cbn; rewrite ?IH; done.
Qed.

Lemma scene_wires_update_diagram_pin c name f (s : Scene) :
  scene_wires (update_diagram_pin c name f s) = scene_wires s.
Proof.
  unfold scene_wires, update_diagram_pin. cbn [items].
  induction (items s) as [|[b|p|w] l IH]; cbn; try done;
    repeat case_decide; cbn; rewrite ?IH; done.
Qed.

Lemma diagram_pin_setPos_keeps c name pos (s : Scene) :
  scene_blocks (diagram_pin_setPos c name pos s) = scene_blocks s
  /\ scene_wires (diagram_pin_setPos c name pos s) = scene_wires s.
Proof.
  unfold diagram_pin_setPos. destruct (find_diagram_pin c name s); [|done].
  repeat case_decide; try done.
  split; [apply scene_blocks_update_diagram_pin|apply scene_wires_update_diagram_pin].
Qed.

Lemma foldl_keeps {A B C} (f : A -> B -> A) (g : A -> C) (l : list B) (a : A) :
  (forall a b, g (f a b) = g a) -> g (foldl f a l) = g a.
Proof.
  intros H. revert a. induction l as [|b l IH]; intros a; cbn; [done|].
  by rewrite IH.
Qed.

Lemma align_diagram_pins_keeps c x super_block (s : Scene) :
  scene_blocks (align_diagram_pins c x super_block s) = scene_blocks s
  /\ scene_wires (align_diagram_pins c x super_block s) = scene_wires s.
Proof.
  unfold align_diagram_pins. destruct (0 <? _); [|done].
  split.
  - apply (foldl_keeps _ scene_blocks). intros a [i p]. apply diagram_pin_setPos_keeps.
  - apply (foldl_keeps _ scene_wires). intros a [i p]. apply diagram_pin_setPos_keeps.
Qed.

Lemma realign_diagram_pins_keeps (s : Scene) :
  scene_blocks (realign_diagram_pins s) = scene_blocks s
  /\ scene_wires (realign_diagram_pins s) = scene_wires s.
Proof.
  unfold realign_diagram_pins. destruct (negb _); [done|].
  destruct (rect_isEmpty _); [done|].
  split.
  - rewrite (proj1 (align_diagram_pins_keeps _ _ _ _)).
    apply align_diagram_pins_keeps.
  - rewrite (proj2 (align_diagram_pins_keeps _ _ _ _)).
    apply align_diagram_pins_keeps.
Qed.

Lemma find_block_name (name : string) (s : Scene) (b : Block) :
  find_block name s = Some b -> block_name b = name.
Proof.
  unfold find_block. intros H. apply find_some in H as [_ H].
  by apply bool_decide_eq_true in H.
Qed.

Lemma update_named_id (name : string) (f : Block -> Block) (l : list Block) (b : Block) :
  List.find (fun b => bool_decide (block_name b = name)) l = Some b ->
  f b = b -> update_named name f l = l.
Proof.
  unfold update_named. induction l as [|x l IH]; intros Hf Hb; [done|].
  cbn in Hf |- *. case_bool_decide as Hx.
  - injection Hf as ->. rewrite decide_True by done. by rewrite Hb.
  - rewrite decide_False by done. by rewrite IH.
Qed.

Lemma update_named_undo (name : string) (f1 f2 : Block -> Block) (l : list Block) (b : Block) :
  List.find (fun b => bool_decide (block_name b = name)) l = Some b ->
  block_name (f1 b) = name -> f2 (f1 b) = b ->
  update_named name f2 (update_named name f1 l) = l.
Proof.
  unfold update_named. induction l as [|x l IH]; intros Hf Hn Hb; [done|].
  cbn in Hf |- *. case_bool_decide as Hx.
  - injection Hf as ->. rewrite decide_True by done. cbn.
    rewrite decide_True by done. by rewrite Hb.
  - rewrite decide_False by done. cbn. rewrite decide_False by done.
    by rewrite IH.
Qed.

Lemma find_update_named (name : string) (f : Block -> Block) (l : list Block) (b : Block) :
  List.find (fun b => bool_decide (block_name b = name)) l = Some b ->
  block_name (f b) = name ->
  List.find (fun b => bool_decide (block_name b = name)) (update_named name f l)
  = Some (f b).
Proof.
  unfold update_named. induction l as [|x l IH]; intros Hf Hn; [done|].
  cbn in Hf |- *. case_bool_decide as Hx.
  - injection Hf as ->. rewrite decide_True by done. cbn.
    by rewrite bool_decide_eq_true_2.
  - rewrite decide_False by done. cbn. rewrite bool_decide_eq_false_2 by done.
    by apply IH.
Qed.

(** The blocks and wires after [setPos] on a block. *)
Lemma block_setPos_blocks (name : string) (pos : QPointF) (s : Scene) (b : Block) :
  find_block name s = Some b ->
  scene_blocks (block_setPos name pos s)
  = update_named name
      (set_block_pos (if decide (block_pos b = pos) then pos else snap_point pos))
      (scene_blocks s)
  /\ scene_wires (block_setPos name pos s) = scene_wires s.
Proof.
  intros Hf. unfold block_setPos. rewrite Hf.
  destruct (decide (block_pos b = pos)) as [<-|Hne].
  - split; [|done]. symmetry. apply (update_named_id _ _ _ b); [done|by destruct b].
  - destruct (decide (block_pos b = snap_point pos)) as [<-|Hne2].
    + split; [|done]. symmetry. apply (update_named_id _ _ _ b); [done|by destruct b].
    + rewrite (proj1 (realign_diagram_pins_keeps _)), (proj2 (realign_diagram_pins_keeps _)).
      split; [apply scene_blocks_update_block|apply scene_wires_update_block].
Qed.

(** Block moves are undone.  Applying a valid move of a block that is on the
    grid and then reverting it gives back every block of the scene, the
    moved one at its position, and every wire. *)
Lemma move_block_revert_restores_blocks (qt : QtPaths) (s s' : Scene) (name : string)
    (block : Block) (move_step : Qc) (cost_params : option Params) (d : Draw)
    (new_cost : Qc) (revert_func : Scene -> Scene) :
  find_block name s = Some block ->
  snap_point (block_pos block) = block_pos block ->
  _apply_and_evaluate_move qt s (MoveBlock name) move_step cost_params d
    = (s', Some (new_cost, revert_func)) ->
  scene_blocks (revert_func s') = scene_blocks s
  /\ scene_wires (revert_func s') = scene_wires s
  /\ find_block name (revert_func s') = Some block.
Proof.
  intros Hf Hgrid Happly.
  assert (scene_blocks (revert_func s') = scene_blocks s
          /\ scene_wires (revert_func s') = scene_wires s) as [Hb Hw].
  2: { repeat split; [done|done|]. unfold find_block. by rewrite Hb. }
  unfold _apply_and_evaluate_move in Happly. rewrite Hf in Happly.
  destruct (block_is_locked block); [discriminate|].
  destruct (_is_rect_overlapping _ _ _); [discriminate|].
  pose proof (f_equal fst Happly) as Hs. pose proof (f_equal snd Happly) as Hr.
  cbn [fst snd] in Hs, Hr. clear Happly.
  injection Hr as _ Hr. subst s' revert_func.
  pose proof (find_block_name _ _ _ Hf) as Hname. rewrite Hname.
  unfold move_block. rewrite Hf. cbn [snd].
  set (target := mkPoint _ _).
  destruct (block_setPos_blocks name target s block Hf) as [Hb1 Hw1].
  set (p1 := if decide (block_pos block = target) then target else snap_point target) in Hb1.
  assert (find_block name (block_setPos name target s) = Some (set_block_pos p1 block))
    as Hf1.
  { unfold find_block. rewrite Hb1. by apply find_update_named. }
  rewrite Hf1. cbn [snd].
  destruct (block_setPos_blocks name (mkPoint (px (block_pos block)) (py (block_pos block)))
              (block_setPos name target s) _ Hf1) as [Hb2 Hw2].
  split; [|by rewrite Hw2].
  rewrite Hb2, Hb1.
  apply (update_named_undo _ _ _ _ block); [done|done|].
  destruct block as [n [x y] lk w h t ip op]. cbn in *.
  case_decide as Hp; [done|].
  by rewrite Hgrid.
Qed.

(** *** Sorting *)

Lemma insert_sorted_perm {A K} (leb : K -> K -> bool) (key : A -> K) (x : A) (l : list A) :
  insert_sorted leb key x l ≡ₚ x :: l.
Proof.
  induction l as [|y l IH]; cbn; [done|].
  destruct (leb (key x) (key y)); [done|].
  rewrite IH. apply Permutation_swap.
Qed.

Lemma sorted_perm {A K} (leb : K -> K -> bool) (key : A -> K) (l : list A) :
  sorted leb key l ≡ₚ l.
Proof.
  induction l as [|x l IH]; cbn; [done|].
  fold (sorted leb key l). by rewrite insert_sorted_perm, IH.
Qed.

Lemma insert_sorted_Sorted {A} (key : A -> Z) (x : A) (l : list A) :
  Sorted Z.le (key <$> l) -> Sorted Z.le (key <$> insert_sorted Z.leb key x l).
Proof.
  induction l as [|y l IH]; intros Hs; cbn.
  - repeat constructor.
  - destruct (Z.leb_spec (key x) (key y)) as [Hle|Hgt]; cbn.
    + constructor; [done|]. by constructor.
    + apply Sorted_inv in Hs as [Hs Hhd]. constructor; [by apply IH|].
      destruct l as [|z l]; cbn.
      * constructor. lia.
      * destruct (Z.leb_spec (key x) (key z)); cbn; constructor; [lia|].
        by apply HdRel_inv in Hhd.
Qed.

Lemma sorted_Sorted {A} (key : A -> Z) (l : list A) :
  Sorted Z.le (key <$> sorted Z.leb key l).
Proof.
  induction l as [|x l IH]; cbn; [constructor|].
  by apply insert_sorted_Sorted.
Qed.

Lemma Sorted_seq (m n : nat) : Sorted Z.le (Z.of_nat <$> seq m n).
Proof.
  revert m. induction n as [|n IH]; intros m; cbn; [constructor|].
  constructor; [apply IH|]. destruct n; cbn; constructor. lia.
Qed.

(** *** Dictionaries *)

Lemma dict_get_alter {V} (f : V -> V) (k k' : string) (d : list (string * V)) :
  dict_get k' (dict_alter f k d)
  = if decide (k' = k) then f <$> dict_get k d else dict_get k' d.
Proof.
  induction d as [|[k0 v] d IH]; cbn; [by case_decide|].
  destruct (decide (k0 = k)) as [->|Hne]; cbn;
    repeat case_decide; simplify_eq; try done.
Qed.

Lemma dict_keys_alter {V} (f : V -> V) (k : string) (d : list (string * V)) :
  dict_keys (dict_alter f k d) = dict_keys d.
Proof.
  unfold dict_keys. induction d as [|[k0 v] d IH]; cbn; [done|].
  destruct (decide (k0 = k)); cbn; [done|]. by rewrite IH.
Qed.

Lemma dict_get_elem {V} (k : string) (v : V) (d : list (string * V)) :
  NoDup (dict_keys d) -> (k, v) ∈ d -> dict_get k d = Some v.
Proof.
  unfold dict_keys. induction d as [|[k0 v0] d IH]; intros Hnd Hin; cbn.
  - by apply elem_of_nil in Hin.
  - cbn in Hnd. apply NoDup_cons in Hnd as [Hk0 Hnd].
    apply elem_of_cons in Hin as [[= <- <-]|Hin].
    + by rewrite decide_True.
    + rewrite decide_False; [by apply IH|].
      intros ->. apply Hk0. apply list_elem_of_fmap. by exists (k, v).
Qed.

Lemma dict_get_None {V} (k : string) (d : list (string * V)) :
  k ∉ dict_keys d -> dict_get k d = None.
Proof.
  unfold dict_keys. induction d as [|[k0 v0] d IH]; intros Hk; cbn; [done|].
  cbn in Hk. apply not_elem_of_cons in Hk as [Hne Hk].
  rewrite decide_False by done. by apply IH.
Qed.

Lemma dict_ext {V} (d1 d2 : list (string * V)) :
  dict_keys d1 = dict_keys d2 -> NoDup (dict_keys d1) ->
  (forall k, dict_get k d1 = dict_get k d2) -> d1 = d2.
Proof.
  unfold dict_keys. revert d2.
  induction d1 as [|[k1 v1] d1 IH]; intros [|[k2 v2] d2] Hk Hnd Hget; cbn in *;
    try done.
  injection Hk as <- Hk. apply NoDup_cons in Hnd as [Hk1 Hnd].
  pose proof (Hget k1) as H1. rewrite !decide_True in H1 by done.
  injection H1 as <-. f_equal. apply IH; [done|done|].
  intros k. specialize (Hget k).
  destruct (decide (k1 = k)) as [<-|Hne]; [|done].
  rewrite (dict_get_None k1 d1) by done.
  rewrite (dict_get_None k1 d2); [done|]. unfold dict_keys. by rewrite <- Hk.
Qed.

(** *** Assigning the indices in a given order *)

Lemma enumerate_from_cons (m : nat) (k : string) (l : list string) :
  enumerate_from m (k :: l) = (Z.of_nat m, k) :: enumerate_from (S m) l.
Proof. reflexivity. Qed.

Lemma reindex_keys (order : list string) : forall m (d : list (string * BlockPin)),
  dict_keys (foldl (fun d '(i, pin_name) => dict_alter (set_index i) pin_name d)
               d (enumerate_from m order))
  = dict_keys d.
Proof.
  induction order as [|k0 order IH]; intros m d; [done|].
  rewrite enumerate_from_cons. cbn [foldl]. by rewrite IH, dict_keys_alter.
Qed.

Lemma reindex_wires (order : list string) : forall m (d : list (string * BlockPin)) k,
  bp_wires <$> dict_get k (foldl (fun d '(i, pin_name) =>
                                    dict_alter (set_index i) pin_name d)
                             d (enumerate_from m order))
  = bp_wires <$> dict_get k d.
Proof.
  induction order as [|k0 order IH]; intros m d k; [done|].
  rewrite enumerate_from_cons. cbn [foldl]. rewrite IH, dict_get_alter.
  case_decide as Hk; [|done]. subst k0. by destruct (dict_get k d).
Qed.

Lemma reindex_get_other (order : list string) : forall m (d : list (string * BlockPin)) k,
  k ∉ order ->
  dict_get k (foldl (fun d '(i, pin_name) => dict_alter (set_index i) pin_name d)
                d (enumerate_from m order))
  = dict_get k d.
Proof.
  induction order as [|k0 order IH]; intros m d k Hk; [done|].
  apply not_elem_of_cons in Hk as [Hne Hk].
  rewrite enumerate_from_cons. cbn [foldl]. rewrite IH by done.
  rewrite dict_get_alter. by rewrite decide_False.
Qed.

Lemma reindex_get (order : list string) : forall m (d : list (string * BlockPin)) i k,
  NoDup order -> order !! i = Some k ->
  dict_get k (foldl (fun d '(i, pin_name) => dict_alter (set_index i) pin_name d)
                d (enumerate_from m order))
  = set_index (Z.of_nat (m + i)) <$> dict_get k d.
Proof.
  induction order as [|k0 order IH]; intros m d i k Hnd Hi; [done|].
  apply NoDup_cons in Hnd as [Hk0 Hnd].
  rewrite enumerate_from_cons. cbn [foldl].
  destruct i as [|i]; cbn in Hi.
  - injection Hi as ->. rewrite reindex_get_other by done.
    rewrite dict_get_alter, decide_True by done. by rewrite Nat.add_0_r.
  - rewrite (IH _ _ i k) by done. rewrite dict_get_alter.
    rewrite decide_False.
    + by replace (S m + i)%nat with (m + S i)%nat by lia.
    + intros ->. apply Hk0. by eapply list_elem_of_lookup_2.
Qed.

Lemma sorted_by_index (pins : list (string * BlockPin)) (i : nat) (k : string) :
  NoDup (dict_keys pins) -> dense_indices pins ->
  sorted Z.leb (fun k => default 0 (index <$> dict_get k pins)) (dict_keys pins) !! i
    = Some k ->
  default 0 (index <$> dict_get k pins) = Z.of_nat i.
Proof.
  intros Hnd Hdense Hi.
  set (idx := fun k => default 0 (index <$> dict_get k pins)) in *.
  assert (idx <$> sorted Z.leb idx (dict_keys pins) = Z.of_nat <$> seq 0 (length pins))
    as Heq.
  { apply (Sorted_unique Z.le); [apply sorted_Sorted|apply Sorted_seq|].
    transitivity (idx <$> dict_keys pins); [apply fmap_Permutation, sorted_perm|].
    assert (idx <$> dict_keys pins = (fun kp => index kp.2) <$> pins) as ->; [|done].
    unfold dict_keys. rewrite <- list_fmap_compose. apply Forall_fmap_ext.
    apply Forall_forall. intros [k0 p0] Hin. cbn. unfold idx.
    by rewrite (dict_get_elem k0 p0). }
  assert ((idx <$> sorted Z.leb idx (dict_keys pins)) !! i = Some (idx k)) as Hl.
  { by rewrite list_lookup_fmap, Hi. }
  rewrite Heq, list_lookup_fmap in Hl.
  destruct (seq 0 (length pins) !! i) as [j|] eqn:Hj; [|done].
  apply lookup_seq in Hj as [-> _]. cbn in Hl. injection Hl as Hl.
  symmetry. exact Hl.
Qed.

Lemma dict_get_is_Some {V} (k : string) (d : list (string * V)) :
  k ∈ dict_keys d -> exists v, dict_get k d = Some v.
Proof.
  unfold dict_keys. induction d as [|[k0 v0] d IH]; intros Hk; cbn in *.
  - by apply elem_of_nil in Hk.
  - case_decide; [by eexists|]. apply IH.
    by apply elem_of_cons in Hk as [->|Hk].
Qed.

(** Assigning the indices in the order sorted by index gives every pin its
    index again. *)
Lemma reindex_restores (pins pins1 : list (string * BlockPin)) :
  NoDup (dict_keys pins) -> dense_indices pins ->
  dict_keys pins1 = dict_keys pins ->
  (forall k, bp_wires <$> dict_get k pins1 = bp_wires <$> dict_get k pins) ->
  foldl (fun d '(i, pin_name) => dict_alter (set_index i) pin_name d) pins1
    (enumerate (sorted Z.leb (fun k => default 0 (index <$> dict_get k pins))
                  (dict_keys pins)))
  = pins.
Proof.
  intros Hnd Hdense Hkeys Hwires.
  set (order := sorted Z.leb _ _).
  assert (order ≡ₚ dict_keys pins) as Hperm by apply sorted_perm.
  change (enumerate order) with (enumerate_from 0 order).
  apply dict_ext.
  - by rewrite reindex_keys.
  - by rewrite reindex_keys, Hkeys.
  - intros k. destruct (decide (k ∈ order)) as [Hin|Hnin].
    + apply list_elem_of_lookup_1 in Hin as [i Hi].
      rewrite (reindex_get order 0 pins1 i k); [|by rewrite Hperm|done].
      pose proof (sorted_by_index pins i k Hnd Hdense Hi) as Hidx.
      destruct (dict_get_is_Some k pins) as [p Hp].
      { rewrite <- Hperm. by eapply list_elem_of_lookup_2. }
      specialize (Hwires k). rewrite Hp in Hwires, Hidx |- *. cbn in Hidx, Hwires.
      destruct (dict_get k pins1) as [p1|]; [|done]. cbn in Hwires |- *.
      injection Hwires as Hw. f_equal. destruct p as [ip wp], p1 as [i1 w1].
      cbn in *. unfold set_index. cbn. by rewrite Hw, Hidx.
    + rewrite reindex_get_other by done.
      rewrite !dict_get_None; [done| |]; [by rewrite <- Hperm|by rewrite Hkeys, <- Hperm].
Qed.

Lemma same_set_perm (l1 l2 : list string) : l1 ≡ₚ l2 -> same_set l1 l2 = true.
Proof.
  intros Hp. unfold same_set. apply andb_true_intro.
  split; apply forallb_forall; intros x Hx; apply bool_decide_eq_true;
    apply list_elem_of_In in Hx; [by rewrite <- Hp|by rewrite Hp].
Qed.

Lemma update_block_id (s : Scene) (name : string) (f : Block -> Block) (b : Block) :
  find_block name s = Some b -> f b = b -> update_block name f s = s.
Proof.
  destruct s as [its re]. unfold update_block, find_block, scene_blocks.
  cbn [items _realign_enabled]. intros Hf Hb. f_equal.
  induction its as [|[b0|p|w] l IH]; cbn in *; try done;
    try (by rewrite IH).
  case_bool_decide as Hx.
  - injection Hf as ->. rewrite decide_True by done. by rewrite Hb.
  - rewrite decide_False by done. by rewrite IH.
Qed.

Lemma update_block_undo (s : Scene) (name : string) (f1 f2 : Block -> Block) (b : Block) :
  find_block name s = Some b -> block_name (f1 b) = name -> f2 (f1 b) = b ->
  update_block name f2 (update_block name f1 s) = s.
Proof.
  destruct s as [its re]. unfold update_block, find_block, scene_blocks.
  cbn [items _realign_enabled]. intros Hf Hn Hb. f_equal.
  induction its as [|[b0|p|w] l IH]; cbn in *; try done;
    try (by rewrite IH).
  case_bool_decide as Hx.
  - injection Hf as ->. rewrite decide_True by done. cbn.
    rewrite decide_True by done. by rewrite Hb.
  - rewrite decide_False by done. cbn. rewrite decide_False by done. by rewrite IH.
Qed.

Lemma find_block_update_block (s : Scene) (name : string) (f : Block -> Block) (b : Block) :
  find_block name s = Some b -> block_name (f b) = name ->
  find_block name (update_block name f s) = Some (f b).
Proof.
  intros Hf Hn. unfold find_block. rewrite scene_blocks_update_block.
  by apply find_update_named.
Qed.

Lemma block_pins_set (t : PinType) (d : list (string * BlockPin)) (b : Block) :
  block_pins t (set_block_pins t d b) = d
  /\ block_name (set_block_pins t d b) = block_name b.
Proof. by destruct t. Qed.

Lemma set_block_pins_id (t : PinType) (b : Block) :
  set_block_pins t (block_pins t b) b = b.
Proof. by destruct t, b. Qed.

(** Reorderings of the pins of a block are undone.  When the names of the
    pins of the reordered direction are distinct and their indices dense,
    applying the move and reverting it gives back the scene: every pin has
    its index again. *)
Lemma reorder_block_pins_revert_restores (qt : QtPaths) (s s' : Scene) (name : string)
    (pin_type : PinType) (block : Block) (move_step : Qc)
    (cost_params : option Params) (d : Draw) (new_cost : Qc)
    (revert_func : Scene -> Scene) :
  find_block name s = Some block ->
  NoDup (dict_keys (block_pins pin_type block)) ->
  dense_indices (block_pins pin_type block) ->
  _apply_and_evaluate_move qt s (ReorderBlockPins name pin_type) move_step cost_params d
    = (s', Some (new_cost, revert_func)) ->
  revert_func s' = s.
Proof.
  intros Hf Hnd Hdense Happly.
  unfold _apply_and_evaluate_move in Happly. rewrite Hf in Happly.
  pose proof (f_equal fst Happly) as Hs. pose proof (f_equal snd Happly) as Hr.
  cbn [fst snd] in Hs, Hr. clear Happly.
  injection Hr as _ Hr. subst s' revert_func.
  pose proof (find_block_name _ _ _ Hf) as Hname. rewrite Hname.
  set (pins := block_pins pin_type block) in *.
  set (original_order := sorted Z.leb _ (dict_keys pins)).
  set (new_order := shuffle d original_order).
  assert (same_set original_order (dict_keys pins) = true) as Hsame
    by apply same_set_perm, sorted_perm.
  unfold set_block_pin_order at 2. rewrite Hf. fold pins.
  destruct (negb (same_set new_order (dict_keys pins))); cbn [snd].
  - unfold set_block_pin_order. rewrite Hf. fold pins. rewrite Hsame. cbn [negb snd].
    unfold original_order. rewrite reindex_restores by done.
    apply (update_block_id _ _ _ block); [done|]. apply set_block_pins_id.
  - set (pins1 := foldl _ pins (enumerate new_order)).
    unfold set_block_pin_order.
    rewrite (find_block_update_block s name _ block Hf)
      by (by rewrite (proj2 (block_pins_set _ _ _))).
    rewrite (proj1 (block_pins_set _ _ _)).
    assert (dict_keys pins1 = dict_keys pins) as Hkeys.
    { unfold pins1. change (enumerate new_order) with (enumerate_from 0 new_order).
      apply reindex_keys. }
    rewrite Hkeys, Hsame. cbn [negb snd].
    unfold original_order. rewrite reindex_restores; [|done|done|done|].
    + apply (update_block_undo _ _ _ _ block); [done| |].
      * by rewrite (proj2 (block_pins_set _ _ _)).
      * destruct pin_type, block; reflexivity.
    + intros k. unfold pins1.
      change (enumerate new_order) with (enumerate_from 0 new_order).
      apply reindex_wires.
Qed.
